(** * harmony: the in-memory mempool mirror

    A shallow embedding of the pending-pool actor ([PendingPool.Start]), of
    the query helpers built on it, of the message-pack wrappers of
    [MemPoolTx], of the per-peer gossip writer ([WriteTo]) and of the
    snapshot poller ([PollTxPoolContent]), followed by the properties the
    specification states about them.

    Conventions.
    - [common.Hash] ([32]byte) and [common.Address] ([20]byte) are the
      big-endian numbers their bytes spell, as [N]; lexicographic byte order
      is numeric order.
    - [*hexutil.Big] and [hexutil.Uint64] values are [Z]; [uint64]
      arithmetic has its wrap-around written out.
    - [time.Time] is a number of nanoseconds, as [Z]; [time.Now().UTC()] is
      an input of every closure that reads the clock.
    - A Go panic is [None]. *)

From stdpp Require Import gmap strings list fin_maps sorting.

#[local] Set Warnings "-clear-no-such-hyp".

Open Scope Z_scope.

(** ** Transactions *)

Abbreviation common_Hash := N (only parsing).
Abbreviation common_Address := N (only parsing).
Abbreviation time_Time := Z (only parsing).

(** [MemPoolTx]: the fields the pool, the pruner and the gossip layer read
    or write. *)
Record MemPoolTx := mkTx {
  From : common_Address;
  Gas : Z;
  GasPrice : Z;
  Hash : common_Hash;
  Input : list Z;
  Nonce : Z;
  To : option common_Address;
  Value : Z;
  PendingFrom : time_Time;
  QueuedAt : time_Time;
  ConfirmedAt : time_Time;
  DroppedAt : time_Time;
  Pool : string;
  ReceivedFrom : string
}.

Definition stampPending (now : time_Time) (tx : MemPoolTx) : MemPoolTx :=
  {| From := From tx; Gas := Gas tx; GasPrice := GasPrice tx; Hash := Hash tx;
     Input := Input tx; Nonce := Nonce tx; To := To tx; Value := Value tx;
     PendingFrom := now; QueuedAt := QueuedAt tx;
     ConfirmedAt := ConfirmedAt tx; DroppedAt := DroppedAt tx;
     Pool := "pending"; ReceivedFrom := ReceivedFrom tx |}.

Definition stampDropped (now : time_Time) (tx : MemPoolTx) : MemPoolTx :=
  {| From := From tx; Gas := Gas tx; GasPrice := GasPrice tx; Hash := Hash tx;
     Input := Input tx; Nonce := Nonce tx; To := To tx; Value := Value tx;
     PendingFrom := PendingFrom tx; QueuedAt := QueuedAt tx;
     ConfirmedAt := ConfirmedAt tx; DroppedAt := now;
     Pool := "dropped"; ReceivedFrom := ReceivedFrom tx |}.

Definition stampConfirmed (now : time_Time) (tx : MemPoolTx) : MemPoolTx :=
  {| From := From tx; Gas := Gas tx; GasPrice := GasPrice tx; Hash := Hash tx;
     Input := Input tx; Nonce := Nonce tx; To := To tx; Value := Value tx;
     PendingFrom := PendingFrom tx; QueuedAt := QueuedAt tx;
     ConfirmedAt := now; DroppedAt := DroppedAt tx;
     Pool := "confirmed"; ReceivedFrom := ReceivedFrom tx |}.

Definition setReceivedFrom (peerId : string) (tx : MemPoolTx) : MemPoolTx :=
  {| From := From tx; Gas := Gas tx; GasPrice := GasPrice tx; Hash := Hash tx;
     Input := Input tx; Nonce := Nonce tx; To := To tx; Value := Value tx;
     PendingFrom := PendingFrom tx; QueuedAt := QueuedAt tx;
     ConfirmedAt := ConfirmedAt tx; DroppedAt := DroppedAt tx;
     Pool := Pool tx; ReceivedFrom := peerId |}.

(** The removal reasons a [TxStatus] carries. *)
Inductive TxState := UNSTUCK | CONFIRMED | DROPPED.

#[export] Instance TxState_eq_dec : EqDecision TxState.
Proof. solve_decision. Defined.

Record TxStatus := mkStatus { StatHash : common_Hash; Status : TxState }.

(** ** Sorted transaction lists *)

(** Modelled from the spec: the three orderings of section 3, one for each
    implementation of the [TxList] interface, which is not part of the
    sources at hand. *)
Inductive TxOrder := ByGasPriceAsc | ByGasPriceDesc | FromAddressAsc.

(** Modelled from the spec: [asc_by_gas] ascends by
    (gas_price, pending_from, hash). *)
Definition ltGasPriceAsc (a b : MemPoolTx) : bool :=
  (GasPrice a <? GasPrice b)
  || ((GasPrice a =? GasPrice b)
      && ((PendingFrom a <? PendingFrom b)
          || ((PendingFrom a =? PendingFrom b) && (Hash a <? Hash b)%N))).

(** Modelled from the spec: [by_sender] ascends by
    (nonce, gas_price_desc, hash). *)
Definition ltFromAddress (a b : MemPoolTx) : bool :=
  (Nonce a <? Nonce b)
  || ((Nonce a =? Nonce b)
      && ((GasPrice b <? GasPrice a)
          || ((GasPrice a =? GasPrice b) && (Hash a <? Hash b)%N))).

(** Modelled from the spec: [desc_by_gas] holds the contents of
    [asc_by_gas] in reverse order. *)
Definition before (o : TxOrder) (a b : MemPoolTx) : bool :=
  match o with
  | ByGasPriceAsc => ltGasPriceAsc a b
  | ByGasPriceDesc => ltGasPriceAsc b a
  | FromAddressAsc => ltFromAddress a b
  end.

(** Modelled from the spec: a [TxList] is an ordered sequence of
    transaction references; [get] and [len] are the methods the pool calls
    on it. *)
Record TxList := mkList { order : TxOrder; get : list MemPoolTx }.

Definition len (l : TxList) : nat := length (get l).

(** Modelled from the spec: the insertion that keeps the order, before the
    first entry the transaction comes before. *)
Fixpoint insertAt (o : TxOrder) (tx : MemPoolTx) (l : list MemPoolTx)
  : list MemPoolTx :=
  match l with
  | [] => [tx]
  | x :: l' => if before o tx x then tx :: x :: l' else x :: insertAt o tx l'
  end.

(** Modelled from the spec: the removal of the entry that carries the hash
    of the transaction. *)
Fixpoint removeAt (tx : MemPoolTx) (l : list MemPoolTx) : list MemPoolTx :=
  match l with
  | [] => []
  | x :: l' => if (Hash x =? Hash tx)%N then l' else x :: removeAt tx l'
  end.

(** Modelled from the spec: [Insert] of the sorted index (section 4.2),
    which places the transaction at its position in the list's order. *)
Definition Insert (l : TxList) (tx : MemPoolTx) : TxList :=
  mkList (order l) (insertAt (order l) tx (get l)).

(** Modelled from the spec: [Remove] of the sorted index (section 4.2),
    which takes the entry of the transaction out and keeps the order. *)
Definition Remove (l : TxList) (tx : MemPoolTx) : TxList :=
  mkList (order l) (removeAt tx (get l)).

(** ** The pending pool *)

Record PendingPool := mkPool {
  Transactions : gmap N MemPoolTx;
  TxsFromAddress : gmap N TxList;
  DroppedTxs : gmap N bool;
  AscTxsByGasPrice : TxList;
  DescTxsByGasPrice : TxList
}.

(** The pool the process starts with: nothing in any index. *)
Definition emptyPool : PendingPool :=
  mkPool ∅ ∅ ∅ (mkList ByGasPriceAsc []) (mkList ByGasPriceDesc []).

Definition hasBeenAllocatedFor (p : PendingPool) (addr : common_Address) : bool :=
  bool_decide (is_Some (TxsFromAddress p !! addr)).

(** [allocateFor] returns the list of the address and the pool in which the
    address has one; the test of [hasBeenAllocatedFor] and the lookup are
    one match here. *)
Definition allocateFor (p : PendingPool) (addr : common_Address)
  : TxList * PendingPool :=
  match TxsFromAddress p !! addr with
  | Some l => (l, p)
  | None =>
      let l := mkList FromAddressAsc [] in
      (l, mkPool (Transactions p) (<[addr := l]> (TxsFromAddress p))
                 (DroppedTxs p) (AscTxsByGasPrice p) (DescTxsByGasPrice p))
  end.

Definition uint64 (z : Z) : Z := z mod 2 ^ 64.

Section Actor.

(** [config.GetPendingPoolSize()], a [uint64]. *)
Variable PendingPoolSize : Z.

Definition needToDropTxs (p : PendingPool) : bool :=
  uint64 (Z.of_nat (len (AscTxsByGasPrice p)) + 1) >? PendingPoolSize.

Definition pickTxWithLowestGasPrice (p : PendingPool) : option MemPoolTx :=
  head (get (AscTxsByGasPrice p)).

Definition addTx (tx : MemPoolTx) (p : PendingPool) : PendingPool :=
  let asc := Insert (AscTxsByGasPrice p) tx in
  let desc := Insert (DescTxsByGasPrice p) tx in
  let '(l, p1) := allocateFor p (From tx) in
  mkPool (<[Hash tx := tx]> (Transactions p1))
         (<[From tx := Insert l tx]> (TxsFromAddress p1))
         (DroppedTxs p1) asc desc.

(** [Remove] on the missing entry of an address is a call on a nil
    interface. *)
Definition removeTx (tx : MemPoolTx) (p : PendingPool) : option PendingPool :=
  match TxsFromAddress p !! From tx with
  | None => None
  | Some l =>
      Some (mkPool (delete (Hash tx) (Transactions p))
                   (<[From tx := Remove l tx]> (TxsFromAddress p))
                   (DroppedTxs p)
                   (Remove (AscTxsByGasPrice p) tx)
                   (Remove (DescTxsByGasPrice p) tx))
  end.

Definition dropTx (tx : MemPoolTx) (p : PendingPool) : option PendingPool :=
  match removeTx tx p with
  | None => None
  | Some p' =>
      Some (mkPool (Transactions p') (TxsFromAddress p')
                   (<[Hash tx := true]> (DroppedTxs p'))
                   (AscTxsByGasPrice p') (DescTxsByGasPrice p'))
  end.

(** What the actor hands to the pub/sub bridge. *)
Inductive Event :=
| PublishAdded (tx : MemPoolTx)
| PublishRemoved (tx : MemPoolTx).

(** The result of one closure call: the reply, the transaction object the
    call worked on as it leaves it (none when the lookup found nothing), the
    pool, and the publications made. *)
Record Outcome := mkOutcome {
  reply : bool;
  txAfter : option MemPoolTx;
  poolAfter : PendingPool;
  published : list Event
}.

Definition txAdder (now : time_Time) (tx : MemPoolTx) (p : PendingPool)
  : option Outcome :=
  if bool_decide (is_Some (Transactions p !! Hash tx)) then
    Some (mkOutcome false (Some tx) p [])
  else if bool_decide (is_Some (DroppedTxs p !! Hash tx)) then
    Some (mkOutcome false (Some tx) p [])
  else
    let dropped :=
      if needToDropTxs p then
        match pickTxWithLowestGasPrice p with
        | None => None
        | Some victim => dropTx victim p
        end
      else Some p in
    match dropped with
    | None => None
    | Some p1 =>
        let tx' := stampPending now tx in
        Some (mkOutcome true (Some tx') (addTx tx' p1) [PublishAdded tx'])
    end.

Definition txRemover (now : time_Time) (txStat : TxStatus) (p : PendingPool)
  : option Outcome :=
  match Transactions p !! StatHash txStat with
  | None => Some (mkOutcome false None p [])
  | Some tx =>
      let tx1 := if decide (Status txStat = DROPPED) then stampDropped now tx else tx in
      let tx2 := if decide (Status txStat = CONFIRMED) then stampConfirmed now tx1 else tx1 in
      match removeTx tx2 p with
      | None => None
      | Some p' => Some (mkOutcome true (Some tx2) p' [PublishRemoved tx2])
      end
  end.

(** The requests of the actor that change the pool; each carries the
    reading of the clock its closure takes. *)
Inductive Request :=
| AddRequest (now : time_Time) (tx : MemPoolTx)
| RemoveRequest (now : time_Time) (txStat : TxStatus).

Definition serve (req : Request) (p : PendingPool) : option Outcome :=
  match req with
  | AddRequest now tx => txAdder now tx p
  | RemoveRequest now txStat => txRemover now txStat p
  end.

(** The pools the actor can be in: the empty one it starts with, and those
    a served request leaves. *)
Inductive reachable : PendingPool -> Prop :=
| reach_init : reachable emptyPool
| reach_serve p req o :
    reachable p -> serve req p = Some o -> reachable (poolAfter o).

(** A batch of [Add] calls, as [AddPendings] makes them: the pool after the
    last one and the number of calls that were accepted. *)
Fixpoint addAll (reqs : list (time_Time * MemPoolTx)) (p : PendingPool)
  : option (PendingPool * nat) :=
  match reqs with
  | [] => Some (p, 0%nat)
  | (now, tx) :: rest =>
      match txAdder now tx p with
      | None => None
      | Some o =>
          match addAll rest (poolAfter o) with
          | None => None
          | Some (p', count) =>
              Some (p', if reply o then S count else count)
          end
      end
  end.

End Actor.

(** ** Queries *)

Inductive ListOrder := ASC | DESC.

(** The reply of the [ListTxsChan] handler, by value: [None] is the nil
    slice, [Some l] a slice of length and capacity [length l]. *)
Definition ListTxs (o : ListOrder) (p : PendingPool) : option (list MemPoolTx) :=
  let index := match o with
               | ASC => AscTxsByGasPrice p
               | DESC => DescTxsByGasPrice p
               end in
  if (len index =? 0)%nat then None else Some (get index).

Definition AscListTxs := ListTxs ASC.
Definition DescListTxs := ListTxs DESC.

(** The reply of the [TxsFromAChan] handler, by value. *)
Definition TxsFromA (addr : common_Address) (p : PendingPool)
  : option (list MemPoolTx) :=
  match TxsFromAddress p !! addr with
  | Some txs => if (len txs =? 0)%nat then None else Some (get txs)
  | None => None
  end.

Definition Count (p : PendingPool) : Z := uint64 (Z.of_nat (len (AscTxsByGasPrice p))).

Definition Get (h : common_Hash) (p : PendingPool) : option MemPoolTx :=
  Transactions p !! h.

(** The slice expression [s[:x]] on a reply, whose capacity is its length
    (zero for nil): it panics when [x] exceeds the capacity. *)
Definition sliceTo (s : option (list MemPoolTx)) (x : Z)
  : option (option (list MemPoolTx)) :=
  match s with
  | None => if x =? 0 then Some None else None
  | Some l =>
      if x <=? Z.of_nat (length l) then Some (Some (take (Z.to_nat x) l)) else None
  end.

Definition TopXWithHighGasPrice (p : PendingPool) (x : Z) := sliceTo (DescListTxs p) x.
Definition TopXWithLowGasPrice (p : PendingPool) (x : Z) := sliceTo (AscListTxs p) x.

(** ** The pruner *)

(** The job [Prune] submits for a prunable transaction. [probe] is what
    [tx.IsDropped(ctx, p.RPC)] returned: its verdict and its error. *)
Definition pruneJob (tx : MemPoolTx) (probe : bool * option string) : TxStatus :=
  let '(dropped, _) := probe in
  if dropped then mkStatus (Hash tx) DROPPED else mkStatus (Hash tx) CONFIRMED.

(** The [internalChan] case of [Prune]: the requests sent to the actor. *)
Definition pruneStatus (now : time_Time) (st : TxStatus) : list Request :=
  if bool_decide (Status st = CONFIRMED) || bool_decide (Status st = DROPPED)
  then [RemoveRequest now st] else [].

(** One probed transaction, from the probe to the requests of the actor. *)
Definition pruneOne (now : time_Time) (tx : MemPoolTx) (probe : bool * option string)
  : list Request :=
  pruneStatus now (pruneJob tx probe).

(** ** Reply slices in memory

    The [ListTxsChan] and [TxsFromAChan] handlers answer with
    [make] and [copy]. Here slices have identity: a slice is nil or names a
    backing array, and the memory maps every array to its cells. A cell
    holds a transaction reference or the nil pointer. *)

Inductive Slice :=
| nilSlice
| slice (array : nat) (length capacity : nat).

Abbreviation Memory := (gmap nat (list (option MemPoolTx))) (only parsing).

Definition sliceLen (s : Slice) : nat :=
  match s with nilSlice => 0 | slice _ n _ => n end.

Definition cells (mem : gmap nat (list (option MemPoolTx))) (s : Slice)
  : list (option MemPoolTx) :=
  match s with
  | nilSlice => []
  | slice a n _ => take n (default [] (mem !! a))
  end.

(** [make([]*MemPoolTx, n)]: a new array of [n] nil pointers. *)
Definition make (mem : gmap nat (list (option MemPoolTx))) (n : nat)
  : gmap nat (list (option MemPoolTx)) * Slice :=
  let a := fresh (dom mem) in
  (<[a := replicate n None]> mem, slice a n n).

(** [copy(dst, src)]: the first [min(len(dst), len(src))] cells of [src]
    written over those of [dst]. *)
Definition copy (mem : gmap nat (list (option MemPoolTx))) (dst src : Slice)
  : gmap nat (list (option MemPoolTx)) :=
  match dst with
  | nilSlice => mem
  | slice a n _ =>
      let k := Nat.min n (sliceLen src) in
      let old := default [] (mem !! a) in
      <[a := take k (cells mem src) ++ drop k old]> mem
  end.

(** The indexes of a pool as the slices their [get()] returns. *)
Record PoolSlices := mkSlices {
  ascSlice : Slice;
  descSlice : Slice;
  fromSlices : gmap N Slice
}.

Definition copied (mem : gmap nat (list (option MemPoolTx))) (index : Slice)
  : gmap nat (list (option MemPoolTx)) * Slice :=
  let '(mem1, dst) := make mem (sliceLen index) in
  (copy mem1 dst index, dst).

(** The [ListTxsChan] case of the actor: the memory it leaves and the slice
    it sends. *)
Definition onListTxs (o : ListOrder) (idx : PoolSlices)
    (mem : gmap nat (list (option MemPoolTx)))
  : gmap nat (list (option MemPoolTx)) * Slice :=
  let index := match o with ASC => ascSlice idx | DESC => descSlice idx end in
  if (sliceLen index =? 0)%nat then (mem, nilSlice) else copied mem index.

(** The [TxsFromAChan] case of the actor. *)
Definition onTxsFromA (addr : common_Address) (idx : PoolSlices)
    (mem : gmap nat (list (option MemPoolTx)))
  : gmap nat (list (option MemPoolTx)) * Slice :=
  match fromSlices idx !! addr with
  | Some txs =>
      if (sliceLen txs =? 0)%nat then (mem, nilSlice) else copied mem txs
  | None => (mem, nilSlice)
  end.

(** The slices hold what the indexes of the pool hold. *)
Definition holds (mem : gmap nat (list (option MemPoolTx))) (s : Slice)
    (l : TxList) : Prop :=
  cells mem s = Some <$> get l ∧ sliceLen s = len l
  ∧ match s with nilSlice => True | slice a _ _ => a ∈ dom mem end.

Definition represents (mem : gmap nat (list (option MemPoolTx)))
    (idx : PoolSlices) (p : PendingPool) : Prop :=
  holds mem (ascSlice idx) (AscTxsByGasPrice p)
  ∧ holds mem (descSlice idx) (DescTxsByGasPrice p)
  ∧ ∀ addr, match TxsFromAddress p !! addr, fromSlices idx !! addr with
            | Some l, Some s => holds mem s l
            | None, None => True
            | _, _ => False
            end.

(** ** Message pack *)

Inductive Result (A : Type) :=
| Ok (a : A)
| Err (e : string).
Arguments Ok {A} a.
Arguments Err {A} e.

Abbreviation bytes := (list Z) (only parsing).

Section MessagePack.

(** The encoder and the decoder of the message-pack library, which the
    repository imports. *)
Variable msgpack_encode : option MemPoolTx -> Result (list Z).
Variable msgpack_decode : list Z -> Result MemPoolTx.

Definition msgpack_Marshal (v : option MemPoolTx) : Result (list Z) :=
  msgpack_encode v.

(** [msgpack.Unmarshal(data, v)] for [v] of type [*MemPoolTx]: [dst] is the
    record [v] points to, [None] when [v] is nil. It returns the error and
    the record behind [v] afterwards. The library refuses a nil pointer. *)
Definition msgpack_Unmarshal (data : list Z) (dst : option MemPoolTx)
  : option string * option MemPoolTx :=
  match dst with
  | None => (Some "msgpack: Decode(non-settable *data.MemPoolTx)", None)
  | Some old =>
      match msgpack_decode data with
      | Ok tx => (None, Some tx)
      | Err e => (Some e, Some old)
      end
  end.

Definition ToMessagePack (m : MemPoolTx) : Result (list Z) :=
  msgpack_Marshal (Some m).

(** [FromMessagePack]: the pointer returned ([None] is nil) and the error.
    [tx] is declared and never allocated. *)
Definition FromMessagePack (data : list Z) : option MemPoolTx * option string :=
  let tx : option MemPoolTx := None in
  match msgpack_Unmarshal data tx with
  | (Some err, _) => (None, Some err)
  | (None, _) => (tx, None)
  end.

End MessagePack.

(** ** Peer gossip: the writer *)

Definition uint32 (z : Z) : Z := z mod 2 ^ 32.

(** [binary.LittleEndian.PutUint32]. *)
Definition PutUint32 (v : Z) : list Z :=
  [Z.land v 255; Z.land (Z.shiftr v 8) 255;
   Z.land (Z.shiftr v 16) 255; Z.land (Z.shiftr v 24) 255].

(** A frame: the length of the payload, then the payload. *)
Definition frame (data : list Z) : list Z :=
  PutUint32 (uint32 (Z.of_nat (length data))) ++ data.

(** The calls made on the buffered stream of a peer. *)
Inductive RWCall :=
| Write (chunk : list Z)
| Flush.

(** The stream of a peer: the calls made on it so far, and whether each of
    the calls to come fails ([true]) or not; calls beyond the script
    succeed. *)
Record Stream := mkStream {
  calls : list RWCall;
  faults : list bool
}.

Definition rwCall (c : RWCall) (s : Stream) : option string * Stream :=
  let err := match faults s with
             | true :: _ => Some "stream error"
             | _ => None
             end in
  (err, mkStream (calls s ++ [c]) (tail (faults s))).

Section Gossip.

(** [graph.UnmarshalPubSubMessage], which answers nil ([None]) when the
    bytes do not decode. *)
Variable UnmarshalPubSubMessage : list Z -> option MemPoolTx.

(** The closure [process] of [WriteTo]: the error returned and the stream. *)
Definition process (peerId : string) (data : list Z) (s : Stream)
  : option string * Stream :=
  match UnmarshalPubSubMessage data with
  | None => (None, s)
  | Some unmarshalled =>
      if String.eqb (ReceivedFrom unmarshalled) peerId then (None, s)
      else
        let chunk := frame data in
        let n := Nat.min (length chunk - 4) (length data) in
        if negb (n =? length data)%nat then (None, s)
        else
          match rwCall (Write chunk) s with
          | (Some err, s1) => (Some err, s1)
          | (None, s1) =>
              match rwCall Flush s1 with
              | (Some err, s2) => (Some err, s2)
              | (None, s2) => (None, s2)
              end
          end
  end.


(** The body of the loop of [ReadFrom] for one chunk that was read whole:
    the transaction handed to [memPool.HandleTxFromPeer], none when the
    chunk does not decode. *)
Definition ReadFrom_chunk (peerId : string) (chunk : list Z) : option MemPoolTx :=
  match UnmarshalPubSubMessage chunk with
  | None => None
  | Some tx => Some (setReceivedFrom peerId tx)
  end.

(** The chunks written on a stream. *)
Definition written (s : Stream) : list (list Z) :=
  omap (λ c, match c with Write chunk => Some chunk | Flush => None end) (calls s).

End Gossip.

(** ** Configuration *)

Module config.

(** [viper.GetString]: the empty string for a key that is not set. *)
Definition Get (cfg : gmap string string) (key : string) : string :=
  default "" (cfg !! key).

Inductive NumError := ErrSyntax | ErrRange.

Definition maxUint64 : Z := 2 ^ 64 - 1.

Definition lower (c : Z) : Z := Z.lor c 32.

(** The digit loop of [strconv.ParseUint] for a base given explicitly, over
    the bytes of the string, from the value [n] read so far. *)
Fixpoint parseDigits (base cutoff maxVal : Z) (s : string) (n : Z)
  : Z * option NumError :=
  match s with
  | EmptyString => (n, None)
  | String a rest =>
      let c := Z.of_N (Ascii.N_of_ascii a) in
      let digit :=
        if (48 <=? c) && (c <=? 57) then Some (c - 48)
        else if (97 <=? lower c) && (lower c <=? 122) then Some (lower c - 97 + 10)
        else None in
      match digit with
      | None => (0, Some ErrSyntax)
      | Some d =>
          if d >=? base then (0, Some ErrSyntax)
          else if n >=? cutoff then (maxVal, Some ErrRange)
          else
            let n' := uint64 (n * base) in
            let n1 := uint64 (n' + d) in
            if (n1 <? n') || (n1 >? maxVal) then (maxVal, Some ErrRange)
            else parseDigits base cutoff maxVal rest n1
      end
  end.



End config.

(** ** The snapshot poller *)

Module mempool.

(** [strings.Contains]. *)
Fixpoint Contains (s substr : string) : bool :=
  String.prefix substr s
  || match s with
     | EmptyString => false
     | String _ s' => Contains s' substr
     end.







End mempool.

(** ** Invariants of the pool *)

(** How often a hash occurs in a list. *)
Definition occurrences (h : common_Hash) (l : list MemPoolTx) : nat :=
  length (filter (λ tx, Hash tx = h) l).

Definition txsFrom (p : PendingPool) (addr : common_Address) : list MemPoolTx :=
  match TxsFromAddress p !! addr with
  | Some l => get l
  | None => []
  end.

(** Invariant 1: a hash is a key of [Transactions] exactly when it occurs
    once in each gas-price index and once in the list of the sender of the
    transaction that carries it. *)
Definition invariant1 (p : PendingPool) : Prop :=
  ∀ h,
    is_Some (Transactions p !! h)
    ↔ ∃ tx, tx ∈ get (AscTxsByGasPrice p) ∧ Hash tx = h
            ∧ occurrences h (get (AscTxsByGasPrice p)) = 1%nat
            ∧ occurrences h (get (DescTxsByGasPrice p)) = 1%nat
            ∧ occurrences h (txsFrom p (From tx)) = 1%nat.

(** Invariant 4: a tombstone is not in the pool. *)
Definition invariant4 (p : PendingPool) : Prop :=
  ∀ h, is_Some (DroppedTxs p !! h) → Transactions p !! h = None.

(** The form of the invariants that is inductive: the indexes hold the
    values of [Transactions], each once, under their own hash and sender. *)
Definition indexOf (txs : gmap N MemPoolTx) (keep : MemPoolTx → Prop)
    (l : list MemPoolTx) : Prop :=
  NoDup (Hash <$> l)
  ∧ ∀ tx, tx ∈ l ↔ (txs !! Hash tx = Some tx ∧ keep tx).

Record consistent (p : PendingPool) : Prop := {
  cons_keys : ∀ h tx, Transactions p !! h = Some tx → Hash tx = h;
  cons_asc : indexOf (Transactions p) (λ _, True) (get (AscTxsByGasPrice p));
  cons_desc : indexOf (Transactions p) (λ _, True) (get (DescTxsByGasPrice p));
  cons_from : ∀ a l, TxsFromAddress p !! a = Some l →
                indexOf (Transactions p) (λ tx, From tx = a) (get l);
  cons_alloc : ∀ h tx, Transactions p !! h = Some tx →
                 is_Some (TxsFromAddress p !! From tx);
  cons_dropped : ∀ h, is_Some (DroppedTxs p !! h) → Transactions p !! h = None
}.

(** ** Sample transactions and runs *)

(** The actor over a sequence of requests. *)
Fixpoint exec (PendingPoolSize : Z) (reqs : list Request) (p : PendingPool)
  : option PendingPool :=
  match reqs with
  | [] => Some p
  | req :: rest =>
      match serve PendingPoolSize req p with
      | None => None
      | Some o => exec PendingPoolSize rest (poolAfter o)
      end
  end.

(** A transaction of sender [from] with the given hash, nonce and gas
    price, as the node reports it. *)
Definition sampleTx (h from : N) (nonce price : Z) : MemPoolTx :=
  mkTx from 21000 price h [] nonce None 0 0 0 0 0 "" "".

(** Three transactions enter a pool of two, the third is confirmed, and the
    evicted one is offered again. *)
Definition sampleRequests : list Request :=
  [AddRequest 10 (sampleTx 1 7 0 100);
   AddRequest 11 (sampleTx 2 7 1 90);
   AddRequest 12 (sampleTx 3 8 0 120);
   RemoveRequest 13 (mkStatus 3 CONFIRMED);
   AddRequest 14 (sampleTx 2 7 1 90)].

(** The pool [sampleRequests] leave: transaction 1 is in it, transaction 2
    is a tombstone. *)
Definition samplePool : PendingPool :=
  default emptyPool (exec 2 sampleRequests emptyPool).


(** ** Adds in gas-price order *)

Definition gasLe (a b : MemPoolTx) : Prop := GasPrice a ≤ GasPrice b.

(** What a pool of capacity [C] is after the transactions [done] were
    offered to the empty pool, each paying at least what those before it
    paid. *)
Record tracks (C : Z) (done : list MemPoolTx) (p : PendingPool) : Prop := {
  tr_cons : consistent p;
  tr_order : order (AscTxsByGasPrice p) = ByGasPriceAsc;
  tr_sorted : StronglySorted gasLe (get (AscTxsByGasPrice p));
  tr_len : Z.of_nat (len (AscTxsByGasPrice p)) = Z.min (Z.of_nat (length done)) C;
  tr_size : size (Transactions p) = len (AscTxsByGasPrice p);
  tr_from : ∀ x, x ∈ get (AscTxsByGasPrice p) →
              ∃ d, d ∈ done ∧ Hash d = Hash x ∧ GasPrice d = GasPrice x;
  tr_all : ∀ d, d ∈ done →
             is_Some (Transactions p !! Hash d) ∨ is_Some (DroppedTxs p !! Hash d);
  tr_dropped : ∀ h, is_Some (DroppedTxs p !! h) →
                 ∃ d, d ∈ done ∧ Hash d = h
                      ∧ ∀ x, x ∈ get (AscTxsByGasPrice p) → GasPrice d ≤ GasPrice x;
  tr_count : (size (DroppedTxs p) + len (AscTxsByGasPrice p))%nat = length done
}.

#[export] Instance gasLe_dec a b : Decision (gasLe a b).
Proof. unfold gasLe. apply _. Defined.

(** Scenario 3 of the specification: gas prices 10, 20 and 30 offered in
    this order. *)
Definition scenario3 : list (Z * MemPoolTx) :=
  [(10, sampleTx 1 7 0 10); (11, sampleTx 2 7 1 20); (12, sampleTx 3 8 0 30)].

(** A decoder for the examples: the one-byte message [221] is transaction 1
    as received from peer A, nothing else decodes. *)
Definition sampleDecode (data : list Z) : option MemPoolTx :=
  match data with
  | [221] => Some (setReceivedFrom "peerA" (sampleTx 1 7 0 10))
  | _ => None
  end.

(** The reply [reply] in the memory [mem'] is a copy of [l] in an array the
    memory [mem] did not have. *)
Definition freshCopyOf (mem mem' : gmap nat (list (option MemPoolTx)))
    (reply : Slice) (l : list MemPoolTx) : Prop :=
  ∃ a, reply = slice a (length l) (length l)
       ∧ (a ∉ dom mem)
       ∧ mem' = <[a := (Some <$> l)]> mem.

(** A pool with transaction 1 of sender 7, and a memory that holds its
    three indexes in the arrays 0, 1 and 2. *)
Definition onePool : PendingPool :=
  default emptyPool (exec 2 [AddRequest 10 (sampleTx 1 7 0 100)] emptyPool).

Definition oneMemory : gmap nat (list (option MemPoolTx)) :=
  list_to_map
    [(0%nat, [Some (stampPending 10 (sampleTx 1 7 0 100))]);
     (1%nat, [Some (stampPending 10 (sampleTx 1 7 0 100))]);
     (2%nat, [Some (stampPending 10 (sampleTx 1 7 0 100))])].

Definition oneSlices : PoolSlices :=
  mkSlices (slice 0 1 1) (slice 1 1 1) {[ 7%N := slice 2 1 1 ]}.


(** ** What the poller is told to read *)

(** The value of a string of decimal digits, from the value [acc] of the
    digits before it; [None] when a byte is not a digit. *)
Fixpoint decimal (s : string) (acc : Z) : option Z :=
  match s with
  | EmptyString => Some acc
  | String a rest =>
      let c := Z.of_N (Ascii.N_of_ascii a) in
      if (48 <=? c) && (c <=? 57) then decimal rest (acc * 10 + (c - 48))
      else None
  end.



(** ** More of the pending pool *)

(** [IsNonceExhausted], against the reply of [eth_getTransactionCount] for
    the sender: the verdict and the error. *)
Definition IsNonceExhausted (m : MemPoolTx) (rpc : Result Z) : bool * option string :=
  match rpc with
  | Err e => (false, Some e)
  | Ok result => (Nonce m <? result, None)
  end.

(** [IsUnstuck], against the same reply. *)
Definition IsUnstuck (m : MemPoolTx) (rpc : Result Z) : bool * option string :=
  match rpc with
  | Err e => (false, Some e)
  | Ok result => (Nonce m <=? result, None)
  end.

(** [VerifiedAdd]: the probe of the nonce, then [Add]. *)
Definition VerifiedAdd (PendingPoolSize : Z) (rpc : Result Z) (now : time_Time)
    (tx : MemPoolTx) (p : PendingPool) : option Outcome :=
  match IsNonceExhausted tx rpc with
  | (_, Some _) => Some (mkOutcome false (Some tx) p [])
  | (true, None) => Some (mkOutcome false (Some tx) p [])
  | (false, None) => txAdder PendingPoolSize now tx p
  end.

(** The test a worker of [Prunables] makes on a transaction of the sender. *)
Definition prunable (targetTx tx : MemPoolTx) : bool :=
  negb (Hash tx =? Hash targetTx)%N && (Nonce tx <=? Nonce targetTx).

(** [Prunables]. The workers answer on a channel in an order of their own:
    [answered] gives, for the list handed out, the order in which its
    transactions are answered. [None] is the nil slice. *)
Definition Prunables (answered : list MemPoolTx → list MemPoolTx)
    (targetTx : MemPoolTx) (p : PendingPool) : option (list MemPoolTx) :=
  match TxsFromA (From targetTx) p with
  | None => None
  | Some txs => Some (targetTx :: filter (λ tx, prunable targetTx tx) (answered txs))
  end.

(** The first loop of the [commChan] case of [Prune], over the hashes
    caught: the prunables gathered and the nonce worked on for each sender. *)
Fixpoint gatherPrunables (answered : list MemPoolTx → list MemPoolTx)
    (caught : list common_Hash) (p : PendingPool)
    (prunables : list MemPoolTx) (alreadyAddedFromA : gmap N Z)
  : list MemPoolTx * gmap N Z :=
  match caught with
  | [] => (prunables, alreadyAddedFromA)
  | h :: rest =>
      match Get h p with
      | None => gatherPrunables answered rest p prunables alreadyAddedFromA
      | Some tx =>
          match alreadyAddedFromA !! From tx with
          | Some workedOnNonce =>
              if workedOnNonce >? Nonce tx
              then gatherPrunables answered rest p prunables alreadyAddedFromA
              else gatherPrunables answered rest p
                     (prunables ++ default [] (Prunables answered tx p))
                     (<[From tx := Nonce tx]> alreadyAddedFromA)
          | None =>
              gatherPrunables answered rest p
                (prunables ++ default [] (Prunables answered tx p))
                (<[From tx := Nonce tx]> alreadyAddedFromA)
          end
      end
  end.

(** The transactions of a batch, without their clock readings, in the order
    of the batch. *)
Definition offered (reqs : list (Z * MemPoolTx)) : list common_Hash :=
  (λ r, Hash r.2) <$> reqs.

(** A pool of two that is full: transactions 1 and 2 of sender 7. *)
Definition fullRequests : list Request :=
  [AddRequest 10 (sampleTx 1 7 0 100); AddRequest 11 (sampleTx 2 7 1 90)].

Definition fullPool : PendingPool :=
  default emptyPool (exec 2 fullRequests emptyPool).

(** What the full pool is after transaction 3 was added to it. *)
Definition evictedPool : PendingPool :=
  default emptyPool (exec 2 [AddRequest 14 (sampleTx 3 8 0 120)] fullPool).

(** The pool has seen the hash: it is a key of [Transactions] or of
    [DroppedTxs]. *)
Definition known (p : PendingPool) (h : common_Hash) : Prop :=
  is_Some (Transactions p !! h) ∨ is_Some (DroppedTxs p !! h).

(** Every transaction of the pool from a sender worked on, with a nonce up
    to the one worked on, has been gathered. *)
Definition covered (p : PendingPool) (acc : list MemPoolTx)
    (already : gmap N Z) : Prop :=
  ∀ a w, already !! a = Some w →
    ∀ tx, Transactions p !! Hash tx = Some tx → From tx = a → Nonce tx ≤ w →
      tx ∈ acc.

(** ** More of the configuration *)





(** [strconv.ParseUint(s, 10, 8)]: the digit loop with the largest value of
    eight bits. *)
Definition ParseUint8 (s : string) : Z * option config.NumError :=
  match s with
  | EmptyString => (0, Some config.ErrSyntax)
  | _ => config.parseDigits 10 (config.maxUint64 / 10 + 1) (2 ^ 8 - 1) s 0
  end.

Definition uint8 (z : Z) : Z := z mod 2 ^ 8.

(** [GetRedisDBIndex]. *)
Definition GetRedisDBIndex (cfg : gmap string string) : Z :=
  let db := config.Get cfg "RedisDB" in
  match ParseUint8 db with
  | (_, Some _) => 1
  | (_db, None) => uint8 _db
  end.

(** ** The reader of a peer *)

(** [binary.LittleEndian.Uint32] on the four bytes read. *)
Definition Uint32 (b : list Z) : Z :=
  match b with
  | [b0; b1; b2; b3] =>
      Z.lor b0 (Z.lor (Z.shiftl b1 8) (Z.lor (Z.shiftl b2 16) (Z.shiftl b3 24)))
  | _ => 0
  end.

Inductive ReadError := EOF | ErrUnexpectedEOF.

(** [io.ReadFull] of [n] bytes from a stream whose peer has sent [input]
    and closed: the bytes and the rest of the stream, or the error and the
    rest. *)
Definition ReadFull (n : nat) (input : list Z)
  : list Z * list Z + ReadError * list Z :=
  if (n =? 0)%nat then inl ([], input)
  else if (n <=? length input)%nat then inl (take n input, drop n input)
  else match input with
       | [] => inr (EOF, [])
       | _ => inr (ErrUnexpectedEOF, [])
       end.

(** One turn of the loop of [ReadFrom]: the function returns, or the loop
    goes on with the rest of the stream, having handed a transaction to
    [memPool.HandleTxFromPeer] or not. A [break] in the [default] case
    leaves the [select], not the loop. *)
Inductive ReaderTurn :=
| Returned
| Looping (input : list Z) (handled : option MemPoolTx).

Section Reader.

Variable UnmarshalPubSubMessage : list Z -> option MemPoolTx.

Definition ReadFrom_turn (ctxDone : bool) (peerId : string) (input : list Z)
  : ReaderTurn :=
  if ctxDone then Returned
  else
    match ReadFull 4 input with
    | inr (_, input1) => Looping input1 None
    | inl (buf, input1) =>
        let size := Uint32 buf in
        match ReadFull (Z.to_nat size) input1 with
        | inr (_, input2) => Looping input2 None
        | inl (chunk, input2) =>
            Looping input2 (ReadFrom_chunk UnmarshalPubSubMessage peerId chunk)
        end
    end.

(** [ReadFrom], turn by turn: [ctx] says for every turn whether the context
    is done by then. The transactions handed to the pool, the rest of the
    stream, and whether the function has returned (and closed
    [healthChan]). *)
Fixpoint ReadFrom (ctx : list bool) (peerId : string) (input : list Z)
  : list MemPoolTx * list Z * bool :=
  match ctx with
  | [] => ([], input, false)
  | ctxDone :: later =>
      match ReadFrom_turn ctxDone peerId input with
      | Returned => ([], input, true)
      | Looping input' handled =>
          let '(txs, rest, returned) := ReadFrom later peerId input' in
          (match handled with Some tx => tx :: txs | None => txs end,
           rest, returned)
      end
  end.

(** How the drain of the queue ends: with an error of the stream, with the
    loop left, or with the loop still running when the clock readings given
    are used up. *)
Inductive DrainEnd := BrokeOut | Drained | Draining.

(** The [time.After] case of the loop of [WriteTo], once the queue is not
    empty: [received] is what [subscriber.Next()] gave, [late] says after
    every call of [process] whether 256 ms have passed. *)
Fixpoint drain (peerId : string) (received : option (list Z))
    (late : list bool) (s : Stream) : DrainEnd * Stream :=
  match received with
  | None => (Drained, s)
  | Some data =>
      match late with
      | [] => (Draining, s)
      | isLate :: later =>
          match process UnmarshalPubSubMessage peerId data s with
          | (Some _, s') => (BrokeOut, s')
          | (None, s') =>
              if isLate then (Drained, s') else drain peerId received later s'
          end
      end
  end.

End Reader.

(** ** The pending pool over a map alone ([app/data/pending.go]) *)

Module pending.

Record PendingPool := mkPool { Transactions : gmap N MemPoolTx }.

(** The status a worker of [RemoveConfirmed] reports. *)
Record TxStatus := mkStatus { StatusHash : common_Hash; Status : bool }.

Definition Count (p : PendingPool) : Z :=
  uint64 (Z.of_nat (size (Transactions p))).

(** [Add]: the answer, the pool, the publications. *)
Definition Add (now : time_Time) (tx : MemPoolTx) (p : PendingPool)
  : bool * PendingPool * list Event :=
  if bool_decide (is_Some (Transactions p !! Hash tx)) then (false, p, [])
  else
    let tx' := stampPending now tx in
    (true, mkPool (<[Hash tx := tx']> (Transactions p)), [PublishAdded tx']).

(** [Remove]: the transaction is published as it sits in the map, then
    deleted. *)
Definition Remove (txHash : common_Hash) (p : PendingPool)
  : bool * PendingPool * list Event :=
  match Transactions p !! txHash with
  | None => (false, p, [])
  | Some tx => (true, mkPool (delete txHash (Transactions p)), [PublishRemoved tx])
  end.

(** The job of a worker of [RemoveConfirmed], against the reply to its
    call. *)
Definition probeStatus (reply : Result Z) (tx : MemPoolTx) : TxStatus :=
  match IsNonceExhausted tx reply with
  | (_, Some _) => mkStatus (Hash tx) false
  | (yes, None) => mkStatus (Hash tx) yes
  end.

(** The last loop of [RemoveConfirmed], from the count so far. *)
Fixpoint removeEach (buffer : list common_Hash) (p : PendingPool) (count : Z)
  : Z * PendingPool * list Event :=
  match buffer with
  | [] => (count, p, [])
  | v :: rest =>
      let '(ok, p1, ev) := Remove v p in
      let '(c, p2, evs) :=
        removeEach rest p1 (if ok then uint64 (count + 1) else count) in
      (c, p2, ev ++ evs)
  end.

(** The hashes [RemoveConfirmed] collects: [rpc] is the reply the node
    gives to the call made for a transaction, [answered] the order in which
    the workers answer for the transactions of the map. *)
Definition confirmedBuffer (rpc : MemPoolTx → Result Z)
    (answered : list MemPoolTx → list MemPoolTx) (p : PendingPool)
  : list common_Hash :=
  StatusHash
    <$> filter (λ v, Status v = true)
          ((λ tx, probeStatus (rpc tx) tx)
             <$> answered ((map_to_list (Transactions p)).*2)).

(** [RemoveConfirmed]: the count, the pool, the publications. *)
Definition RemoveConfirmed (rpc : MemPoolTx → Result Z)
    (answered : list MemPoolTx → list MemPoolTx) (p : PendingPool)
  : Z * PendingPool * list Event :=
  if (size (Transactions p) =? 0)%nat then (0, p, [])
  else
    let buffer := confirmedBuffer rpc answered p in
    if (length buffer =? 0)%nat then (0, p, []) else removeEach buffer p 0.

(** [AddPendings], over the transactions of the snapshot in the order the
    two [range] loops visit them, from the count so far. *)
Fixpoint AddPendings (txs : list (time_Time * MemPoolTx)) (p : PendingPool)
    (count : Z) : Z * PendingPool * list Event :=
  match txs with
  | [] => (count, p, [])
  | (now, tx) :: rest =>
      let '(ok, p1, ev) := Add now tx p in
      let '(c, p2, evs) :=
        AddPendings rest p1 (if ok then uint64 (count + 1) else count) in
      (c, p2, ev ++ evs)
  end.

End pending.

(** The probe of a transaction succeeded and found its nonce used up. *)
Definition confirmedBy (rpc : MemPoolTx → Result Z) (tx : MemPoolTx) : bool :=
  match rpc tx with
  | Ok count => Nonce tx <? count
  | Err _ => false
  end.

(** A map pool with transactions 1 and 2 of sender 7 and transaction 3 of
    sender 8, and a node that says sender 7 has used one nonce and fails on
    every other call. *)
Definition mapPool : pending.PendingPool :=
  pending.mkPool
    (list_to_map [(1%N, sampleTx 1 7 0 100); (2%N, sampleTx 2 7 1 90);
                  (3%N, sampleTx 3 8 0 120)]).

Definition sampleNode (tx : MemPoolTx) : Result Z :=
  if (From tx =? 7)%N then Ok 1 else Err "connection refused".

(** ** Bootstrap peers ([app/networking/peer.go]) *)

(** What the goroutine of [ConnectToBootstraps] for one address reports:
    whether the address parsed and, if it did, whether the connection was
    made. *)
Definition bootStatus (parsed connected : bool) : bool :=
  if negb parsed then false else if negb connected then false else true.

(** The loop of [ConnectToBootstraps] over the statuses in the order they
    arrive on the channel. [None]: the loop waits for a status that never
    comes. *)
Fixpoint awaitBoot (arrival : list bool) (expected : Z) (success failure : Z)
  : option (Z * Z) :=
  match arrival with
  | [] => None
  | v :: later =>
      let success' := if v then success + 1 else success in
      let failure' := if v then failure else failure + 1 in
      if success' + failure' =? expected then Some (success', expected)
      else awaitBoot later expected success' failure'
  end.

(** [ConnectToBootstraps]: [outcomes] says for every bootstrap address
    whether it parsed and whether it connected, [answered] in which order
    the goroutines report. *)
Definition ConnectToBootstraps (outcomes : list (bool * bool))
    (answered : list bool → list bool) : option (Z * Z) :=
  awaitBoot (answered ((λ o, bootStatus o.1 o.2) <$> outcomes))
    (Z.of_nat (length outcomes)) 0 0.

(** * Properties *)

(** ** Sorted lists *)

Lemma insertAt_perm o tx l : insertAt o tx l ≡ₚ tx :: l.
Proof.
  induction l as [|x l IH]; simpl; [done|].
  destruct (before o tx x); [done|].
  rewrite IH. apply Permutation_swap.
Qed.

Lemma elem_of_insertAt o tx l x : x ∈ insertAt o tx l ↔ x = tx ∨ x ∈ l.
Proof. rewrite insertAt_perm. apply elem_of_cons. Qed.

Lemma length_insertAt o tx l : length (insertAt o tx l) = S (length l).
Proof. by rewrite insertAt_perm. Qed.

Lemma removeAt_sublist tx l : removeAt tx l `sublist_of` l.
Proof.
  induction l as [|x l IH]; simpl; [done|].
  destruct (Hash x =? Hash tx)%N.
  - by apply sublist_cons.
  - by apply sublist_skip.
Qed.

Lemma NoDup_removeAt tx l :
  NoDup (Hash <$> l) → NoDup (Hash <$> removeAt tx l).
Proof.
  intros Hnd. eapply sublist_NoDup; [exact Hnd|].
  apply fmap_sublist, removeAt_sublist.
Qed.

Lemma elem_of_removeAt tx l x :
  NoDup (Hash <$> l) →
  x ∈ removeAt tx l ↔ x ∈ l ∧ Hash x ≠ Hash tx.
Proof.
  induction l as [|y l IH]; simpl; intros Hnd.
  - split; [inversion 1|intros [H _]; inversion H].
  - apply NoDup_cons in Hnd as [Hy Hnd].
    destruct (Hash y =? Hash tx)%N eqn:E.
    + apply N.eqb_eq in E. rewrite elem_of_cons. split.
      * intros Hx. split; [by right|]. intros Heq. apply Hy.
        rewrite E, <- Heq. by apply list_elem_of_fmap_2.
      * intros [[->|Hx] Hne]; [congruence|done].
    + apply N.eqb_neq in E. rewrite !elem_of_cons, IH by done. split.
      * intros [->|[Hx Hne]]; [split; [by left|done]|split; [by right|done]].
      * intros [[->|Hx] Hne]; [by left|by right].
Qed.

Lemma length_removeAt tx l :
  (∃ x, x ∈ l ∧ Hash x = Hash tx) → S (length (removeAt tx l)) = length l.
Proof.
  induction l as [|y l IH]; simpl; intros (x & Hx & Heq).
  - inversion Hx.
  - destruct (Hash y =? Hash tx)%N eqn:E; [done|].
    apply N.eqb_neq in E. simpl. f_equal. apply IH.
    apply elem_of_cons in Hx as [->|Hx]; [done|eauto].
Qed.

(** ** Occurrences *)

Lemma occurrences_cons h x l :
  occurrences h (x :: l)
  = ((if decide (Hash x = h) then 1 else 0) + occurrences h l)%nat.
Proof.
  unfold occurrences. rewrite filter_cons. by destruct (decide (Hash x = h)).
Qed.

Lemma occurrences_0 h l : occurrences h l = 0%nat ↔ h ∉ Hash <$> l.
Proof.
  induction l as [|x l IH].
  - split; [intros _; apply not_elem_of_nil|done].
  - rewrite occurrences_cons, fmap_cons, not_elem_of_cons.
    destruct (decide (Hash x = h)); simpl; [|rewrite IH]; naive_solver.
Qed.

Lemma occurrences_1 h l :
  NoDup (Hash <$> l) → occurrences h l = 1%nat ↔ h ∈ Hash <$> l.
Proof.
  induction l as [|x l IH]; intros Hnd.
  - split; [done|]. intros Hin. by apply elem_of_nil in Hin.
  - rewrite fmap_cons in Hnd. apply NoDup_cons in Hnd as [Hx Hnd].
    rewrite occurrences_cons, fmap_cons, elem_of_cons.
    destruct (decide (Hash x = h)) as [<-|Hne]; simpl.
    + apply occurrences_0 in Hx. rewrite Hx. naive_solver.
    + rewrite IH by done. naive_solver.
Qed.

Lemma occurrences_elem h l :
  occurrences h l = 1%nat → ∃ tx, tx ∈ l ∧ Hash tx = h.
Proof.
  intros H. destruct (decide (h ∈ Hash <$> l)) as [Hin|Hnin].
  - apply list_elem_of_fmap in Hin as (tx & -> & Hin). eauto.
  - apply occurrences_0 in Hnin. lia.
Qed.

(** ** Indexes follow the map *)

Lemma indexOf_insert txs keep o tx l :
  indexOf txs keep l → txs !! Hash tx = None → keep tx →
  indexOf (<[Hash tx := tx]> txs) keep (insertAt o tx l).
Proof.
  intros [Hnd Hl] Hfresh Hkeep. split.
  - rewrite insertAt_perm, fmap_cons. apply NoDup_cons. split; [|done].
    intros Hin. apply list_elem_of_fmap in Hin as (x & Heq & Hx).
    apply Hl in Hx as [Hx _]. congruence.
  - intros x. rewrite elem_of_insertAt, Hl. split.
    + intros [->|[Hx Hk]]; [by rewrite lookup_insert_eq|].
      split; [|done]. rewrite lookup_insert_ne; [done|congruence].
    + intros [Hx Hk]. destruct (decide (Hash tx = Hash x)) as [Heq|Hne].
      * rewrite Heq, lookup_insert_eq in Hx. left. congruence.
      * rewrite lookup_insert_ne in Hx by done. by right.
Qed.

Lemma indexOf_insert_other txs keep tx l :
  indexOf txs keep l → txs !! Hash tx = None → ¬ keep tx →
  indexOf (<[Hash tx := tx]> txs) keep l.
Proof.
  intros [Hnd Hl] Hfresh Hkeep. split; [done|].
  intros x. rewrite Hl. split.
  - intros [Hx Hk]. split; [|done]. rewrite lookup_insert_ne; [done|congruence].
  - intros [Hx Hk]. destruct (decide (Hash tx = Hash x)) as [Heq|Hne].
    + rewrite Heq, lookup_insert_eq in Hx. congruence.
    + by rewrite lookup_insert_ne in Hx.
Qed.

Lemma indexOf_remove txs keep tx l :
  indexOf txs keep l → indexOf (delete (Hash tx) txs) keep (removeAt tx l).
Proof.
  intros [Hnd Hl]. split; [by apply NoDup_removeAt|].
  intros x. rewrite elem_of_removeAt, Hl, lookup_delete_Some by done.
  naive_solver.
Qed.

Lemma indexOf_delete_other txs keep tx l :
  indexOf txs keep l → (∀ x, txs !! Hash tx = Some x → ¬ keep x) →
  indexOf (delete (Hash tx) txs) keep l.
Proof.
  intros [Hnd Hl] Hother. split; [done|].
  intros x. rewrite Hl, lookup_delete_Some. split; [|naive_solver].
  intros [Hx Hk]. split; [|done]. split; [|done].
  intros Heq. rewrite Heq in Hother. by eapply Hother.
Qed.

(** ** The closures keep the pool consistent *)

Lemma consistent_empty : consistent emptyPool.
Proof.
  split; simpl; try (intros; simplify_map_eq; fail).
  - split; [constructor|]. intros tx. rewrite elem_of_nil, lookup_empty. naive_solver.
  - split; [constructor|]. intros tx. rewrite elem_of_nil, lookup_empty. naive_solver.
  - intros h [x Hx]. by rewrite lookup_empty in Hx.
Qed.

Lemma consistent_addTx tx p :
  consistent p → Transactions p !! Hash tx = None →
  DroppedTxs p !! Hash tx = None →
  consistent (addTx tx p).
Proof.
  intros [Hkeys Hasc Hdesc Hfrom Halloc Hdrop] Hfresh Hlive.
  assert (Hnone : TxsFromAddress p !! From tx = None →
                  indexOf (Transactions p) (λ x, From x = From tx) []).
  { intros E. split; [constructor|]. intros x. rewrite elem_of_nil. split; [done|].
    intros [Hx Hk]. apply Halloc in Hx. rewrite Hk, E in Hx. by destruct Hx. }
  unfold addTx, allocateFor.
  destruct (TxsFromAddress p !! From tx) as [l|] eqn:E; split; simpl.
  all: try (by apply indexOf_insert).
  - intros h x. rewrite lookup_insert_Some. naive_solver.
  - intros a l'. rewrite lookup_insert_Some. intros [[<- <-]|[Hne Hl]]; simpl.
    + apply indexOf_insert; eauto.
    + apply indexOf_insert_other; eauto.
  - intros h x. rewrite lookup_insert_Some. intros [[<- <-]|[Hne Hx]].
    + by rewrite lookup_insert_eq.
    + destruct (decide (From tx = From x)) as [->|Hn];
        [by rewrite lookup_insert_eq|rewrite lookup_insert_ne by done; eauto].
  - intros h Hd. rewrite lookup_insert_None. split; [by apply Hdrop|].
    intros <-. rewrite Hlive in Hd. by destruct Hd.
  - intros h x. rewrite lookup_insert_Some. naive_solver.
  - intros a l'. rewrite lookup_insert_Some. intros [[<- <-]|[Hne Hl]]; simpl.
    + apply (indexOf_insert _ _ FromAddressAsc tx []); eauto.
    + rewrite lookup_insert_ne in Hl by done. apply indexOf_insert_other; eauto.
  - intros h x. rewrite lookup_insert_Some. intros [[<- <-]|[Hne Hx]].
    + by rewrite lookup_insert_eq.
    + destruct (decide (From tx = From x)) as [->|Hn];
        [by rewrite lookup_insert_eq|].
      rewrite !lookup_insert_ne by done. eauto.
  - intros h Hd. rewrite lookup_insert_None. split; [by apply Hdrop|].
    intros <-. rewrite Hlive in Hd. by destruct Hd.
Qed.

Lemma removeTx_Some tx p :
  consistent p →
  (∃ tx0, Transactions p !! Hash tx = Some tx0 ∧ From tx0 = From tx) →
  is_Some (removeTx tx p).
Proof.
  intros Hc (tx0 & Htx0 & Hfrom). unfold removeTx.
  destruct (cons_alloc p Hc _ _ Htx0) as [l Hl]. rewrite Hfrom in Hl.
  rewrite Hl. eauto.
Qed.

Lemma consistent_removeTx tx p p' :
  consistent p →
  (∃ tx0, Transactions p !! Hash tx = Some tx0 ∧ From tx0 = From tx) →
  removeTx tx p = Some p' →
  consistent p'.
Proof.
  intros [Hkeys Hasc Hdesc Hfrom Halloc Hdrop] (tx0 & Htx0 & Hsender).
  unfold removeTx. destruct (TxsFromAddress p !! From tx) as [l|] eqn:E; [|done].
  intros [= <-]. split; simpl.
  - intros h x. rewrite lookup_delete_Some. naive_solver.
  - by apply indexOf_remove.
  - by apply indexOf_remove.
  - intros a l'. rewrite lookup_insert_Some. intros [[<- <-]|[Hne Hl]]; simpl.
    + apply indexOf_remove; eauto.
    + apply indexOf_delete_other; [eauto|].
      intros x Hx. rewrite Htx0 in Hx. injection Hx as <-. congruence.
  - intros h x. rewrite lookup_delete_Some. intros [_ Hx].
    destruct (decide (From tx = From x)) as [->|Hn];
      [by rewrite lookup_insert_eq|rewrite lookup_insert_ne by done; eauto].
  - intros h Hd. rewrite lookup_delete_None. right. by apply Hdrop.
Qed.

Lemma removeTx_DroppedTxs tx p p' :
  removeTx tx p = Some p' → DroppedTxs p' = DroppedTxs p.
Proof.
  unfold removeTx. destruct (TxsFromAddress p !! From tx); [|done].
  by intros [= <-].
Qed.

Lemma removeTx_Transactions tx p p' :
  removeTx tx p = Some p' → Transactions p' = delete (Hash tx) (Transactions p).
Proof.
  unfold removeTx. destruct (TxsFromAddress p !! From tx); [|done].
  by intros [= <-].
Qed.

Lemma removeTx_Asc tx p p' :
  removeTx tx p = Some p' →
  AscTxsByGasPrice p' = Remove (AscTxsByGasPrice p) tx.
Proof.
  unfold removeTx. destruct (TxsFromAddress p !! From tx); [|done].
  by intros [= <-].
Qed.

Lemma consistent_dropTx tx p p' :
  consistent p →
  (∃ tx0, Transactions p !! Hash tx = Some tx0 ∧ From tx0 = From tx) →
  dropTx tx p = Some p' →
  consistent p'.
Proof.
  intros Hc Hin. unfold dropTx.
  destruct (removeTx tx p) as [p1|] eqn:E; [|done]. intros [= <-].
  pose proof (consistent_removeTx _ _ _ Hc Hin E) as [? ? ? ? ? Hdrop].
  split; simpl; try done.
  intros h. rewrite lookup_insert_is_Some. intros [<-|[Hne Hd]]; [|by apply Hdrop].
  rewrite (removeTx_Transactions _ _ _ E). apply lookup_delete_eq.
Qed.

Lemma head_indexed p victim :
  consistent p → pickTxWithLowestGasPrice p = Some victim →
  Transactions p !! Hash victim = Some victim.
Proof.
  intros Hc Hpick. unfold pickTxWithLowestGasPrice in Hpick.
  apply head_Some_elem_of in Hpick.
  by apply (cons_asc p Hc) in Hpick as [? _].
Qed.

Section ActorInvariants.

Variable PendingPoolSize : Z.

Lemma consistent_txAdder now tx p o :
  consistent p → txAdder PendingPoolSize now tx p = Some o →
  consistent (poolAfter o).
Proof.
  intros Hc. unfold txAdder.
  case_bool_decide as Hin; [by intros [= <-]|].
  case_bool_decide as Hdead; [by intros [= <-]|].
  apply eq_None_not_Some in Hin, Hdead.
  destruct (needToDropTxs PendingPoolSize p).
  - destruct (pickTxWithLowestGasPrice p) as [victim|] eqn:Hpick; [|done].
    pose proof (head_indexed _ _ Hc Hpick) as Hv.
    destruct (dropTx victim p) as [p1|] eqn:Hdrop; [|done].
    intros [= <-]. simpl.
    assert (Hne : Hash victim ≠ Hash tx) by congruence.
    pose proof Hdrop as Hdrop'. unfold dropTx in Hdrop'.
    destruct (removeTx victim p) as [p0|] eqn:Hrm; [|done].
    injection Hdrop' as <-.
    apply consistent_addTx; simpl.
    + eapply consistent_dropTx; eauto.
    + rewrite (removeTx_Transactions _ _ _ Hrm).
      rewrite lookup_delete_ne by done. exact Hin.
    + rewrite (removeTx_DroppedTxs _ _ _ Hrm).
      rewrite lookup_insert_ne by done. exact Hdead.
  - intros [= <-]. simpl. by apply consistent_addTx.
Qed.

Lemma consistent_txRemover now txStat p o :
  consistent p → txRemover now txStat p = Some o → consistent (poolAfter o).
Proof.
  intros Hc. unfold txRemover.
  destruct (Transactions p !! StatHash txStat) as [tx|] eqn:Htx;
    [|by intros [= <-]].
  pose proof (cons_keys p Hc _ _ Htx) as Hkey.
  set (tx1 := if decide (Status txStat = DROPPED) then _ else _).
  set (tx2 := if decide (Status txStat = CONFIRMED) then _ else _).
  assert (Hash tx2 = Hash tx ∧ From tx2 = From tx) as [Hh Hf].
  { unfold tx2, tx1. by repeat case_decide. }
  destruct (removeTx tx2 p) as [p'|] eqn:Hrm; [|done].
  intros [= <-]. simpl. eapply consistent_removeTx; [done| |done].
  exists tx. rewrite Hh, Hkey. done.
Qed.

Lemma consistent_serve req p o :
  consistent p → serve PendingPoolSize req p = Some o →
  consistent (poolAfter o).
Proof.
  destruct req; simpl; eauto using consistent_txAdder, consistent_txRemover.
Qed.

Lemma reachable_consistent p : reachable PendingPoolSize p → consistent p.
Proof.
  induction 1 as [|p req o _ IH Hserve];
    eauto using consistent_empty, consistent_serve.
Qed.

End ActorInvariants.

Lemma consistent_invariant1 p : consistent p → invariant1 p.
Proof.
  intros [Hkeys [Hna Hasc] [Hnd Hdesc] Hfrom Halloc _] h. split.
  - intros [tx Htx]. pose proof (Hkeys _ _ Htx) as <-.
    destruct (Halloc _ _ Htx) as [l Hl].
    destruct (Hfrom _ _ Hl) as [Hnl Hmem].
    exists tx. split; [by apply Hasc|]. split; [done|].
    rewrite !occurrences_1 by done. unfold txsFrom. rewrite Hl.
    rewrite occurrences_1 by done.
    split_and!; apply list_elem_of_fmap_2; [by apply Hasc|by apply Hdesc|by apply Hmem].
  - intros (tx & Hin & <- & _). apply Hasc in Hin as [Hin _]. eauto.
Qed.

Lemma consistent_invariant4 p : consistent p → invariant4 p.
Proof. intros Hc. exact (cons_dropped p Hc). Qed.

Lemma reachable_exec cap reqs p p' :
  reachable cap p → exec cap reqs p = Some p' → reachable cap p'.
Proof.
  revert p. induction reqs as [|req rest IH]; simpl; intros p Hp.
  - by intros [= <-].
  - destruct (serve cap req p) as [o|] eqn:Hs; [|done].
    apply IH. by eapply reach_serve.
Qed.

(** ** C1 *)

(** C1. After every request the actor serves, from the empty pool on, a hash
    is a key of [Transactions] exactly when it occurs once in
    [AscTxsByGasPrice], once in [DescTxsByGasPrice] and once in the list
    [TxsFromAddress] keeps for the sender of its transaction, and no hash of
    [DroppedTxs] is a key of [Transactions]. *)
Theorem pool_invariants_hold (PendingPoolSize : Z) (p : PendingPool) :
  reachable PendingPoolSize p → invariant1 p ∧ invariant4 p.
Proof.
  intros Hr. apply reachable_consistent in Hr.
  split; [by apply consistent_invariant1|by apply consistent_invariant4].
Qed.

Lemma pool_invariants_hold_witness :
  ∃ p, exec 2 sampleRequests emptyPool = Some p ∧ invariant1 p ∧ invariant4 p.
Proof.
  eexists. split; [vm_compute; reflexivity|].
  apply (pool_invariants_hold 2).
  apply (reachable_exec 2 sampleRequests emptyPool); [apply reach_init|].
  vm_compute; reflexivity.
Defined.

(** ** The actor returns *)

Lemma serve_returns (PendingPoolSize : Z) req p :
  1 ≤ PendingPoolSize → consistent p →
  is_Some (serve PendingPoolSize req p).
Proof.
  intros Hcap Hc. destruct req as [now tx|now txStat]; simpl.
  - unfold txAdder. case_bool_decide; [eauto|]. case_bool_decide; [eauto|].
    destruct (needToDropTxs PendingPoolSize p) eqn:Hneed; [|eauto].
    destruct (pickTxWithLowestGasPrice p) as [victim|] eqn:Hpick.
    + pose proof (head_indexed _ _ Hc Hpick) as Hv.
      destruct (removeTx_Some victim p Hc) as [p0 Hrm]; [by exists victim|].
      unfold dropTx. rewrite Hrm. eauto.
    + unfold pickTxWithLowestGasPrice in Hpick. apply head_None in Hpick.
      unfold needToDropTxs, len in Hneed. rewrite Hpick in Hneed.
      change (uint64 (Z.of_nat (length []) + 1)) with 1 in Hneed.
      apply Z.gtb_lt in Hneed. exfalso. lia.
  - unfold txRemover.
    destruct (Transactions p !! StatHash txStat) as [tx|] eqn:Htx; [|eauto].
    pose proof (cons_keys p Hc _ _ Htx) as Hkey.
    set (tx1 := if decide (Status txStat = DROPPED) then _ else _).
    set (tx2 := if decide (Status txStat = CONFIRMED) then _ else _).
    assert (Hash tx2 = Hash tx ∧ From tx2 = From tx) as [Hh Hf].
    { unfold tx2, tx1. by repeat case_decide. }
    destruct (removeTx_Some tx2 p Hc) as [p' Hrm].
    { exists tx. by rewrite Hh, Hkey. }
    rewrite Hrm. eauto.
Qed.

(** ** C4 *)

(** C4. [Add] of a transaction whose hash is a key of [Transactions] or of
    [DroppedTxs] answers false, leaves the pool and the transaction as they
    were and publishes nothing. *)
Theorem duplicate_add_rejected (PendingPoolSize : Z) (now : Z)
    (tx : MemPoolTx) (p : PendingPool) :
  is_Some (Transactions p !! Hash tx) ∨ is_Some (DroppedTxs p !! Hash tx) →
  txAdder PendingPoolSize now tx p = Some (mkOutcome false (Some tx) p []).
Proof.
  intros Hdup. unfold txAdder.
  case_bool_decide as Hin; [done|].
  case_bool_decide as Hdead; [done|].
  by destruct Hdup.
Qed.

Lemma duplicate_add_rejected_witness :
  (is_Some (Transactions samplePool !! Hash (sampleTx 2 7 1 90))
   ∨ is_Some (DroppedTxs samplePool !! Hash (sampleTx 2 7 1 90)))
  ∧ txAdder 2 15 (sampleTx 2 7 1 90) samplePool
    = Some (mkOutcome false (Some (sampleTx 2 7 1 90)) samplePool []).
Proof.
  assert (H : is_Some (Transactions samplePool !! Hash (sampleTx 2 7 1 90))
              ∨ is_Some (DroppedTxs samplePool !! Hash (sampleTx 2 7 1 90))).
  { right. vm_compute. eexists. reflexivity. }
  split; [exact H|]. exact (duplicate_add_rejected 2 15 _ _ H).
Defined.

(** ** C7 *)

Lemma addTx_DroppedTxs tx p : DroppedTxs (addTx tx p) = DroppedTxs p.
Proof.
  unfold addTx, allocateFor. by destruct (TxsFromAddress p !! From tx).
Qed.

Lemma addTx_Transactions tx p :
  Transactions (addTx tx p) = <[Hash tx := tx]> (Transactions p).
Proof.
  unfold addTx, allocateFor. by destruct (TxsFromAddress p !! From tx).
Qed.

Lemma addTx_Asc tx p :
  AscTxsByGasPrice (addTx tx p) = Insert (AscTxsByGasPrice p) tx.
Proof.
  unfold addTx, allocateFor. by destruct (TxsFromAddress p !! From tx).
Qed.




(** ** C2 *)

Lemma ltGasPriceAsc_true a b : ltGasPriceAsc a b = true → gasLe a b.
Proof.
  unfold ltGasPriceAsc, gasLe.
  destruct (Z.ltb_spec (GasPrice a) (GasPrice b)); [lia|].
  destruct (Z.eqb_spec (GasPrice a) (GasPrice b)); [lia|done].
Qed.

Lemma ltGasPriceAsc_false a b : ltGasPriceAsc a b = false → gasLe b a.
Proof.
  unfold ltGasPriceAsc, gasLe.
  destruct (Z.ltb_spec (GasPrice a) (GasPrice b)); [done|lia].
Qed.

Lemma insertAt_sorted tx l :
  StronglySorted gasLe l → StronglySorted gasLe (insertAt ByGasPriceAsc tx l).
Proof.
  induction 1 as [|x l Hs IH Hx]; simpl.
  - repeat constructor.
  - destruct (ltGasPriceAsc tx x) eqn:E.
    + apply ltGasPriceAsc_true in E. apply SSorted_cons.
      * by apply SSorted_cons.
      * constructor; [done|]. eapply Forall_impl; [exact Hx|].
        intros y Hy. unfold gasLe in *. lia.
    + apply ltGasPriceAsc_false in E. apply SSorted_cons; [done|].
      rewrite insertAt_perm. by constructor.
Qed.

Lemma txAdder_keep C now tx p :
  Transactions p !! Hash tx = None → DroppedTxs p !! Hash tx = None →
  needToDropTxs C p = false →
  txAdder C now tx p
  = Some (mkOutcome true (Some (stampPending now tx))
            (addTx (stampPending now tx) p)
            [PublishAdded (stampPending now tx)]).
Proof.
  intros Hin Hdead Hroom. unfold txAdder. rewrite Hroom.
  case_bool_decide as H1; [rewrite Hin in H1; by destruct H1|].
  case_bool_decide as H2; [rewrite Hdead in H2; by destruct H2|].
  done.
Qed.

Lemma txAdder_evict C now tx p victim p0 :
  Transactions p !! Hash tx = None → DroppedTxs p !! Hash tx = None →
  needToDropTxs C p = true →
  pickTxWithLowestGasPrice p = Some victim →
  removeTx victim p = Some p0 →
  txAdder C now tx p
  = Some (mkOutcome true (Some (stampPending now tx))
            (addTx (stampPending now tx)
               (mkPool (Transactions p0) (TxsFromAddress p0)
                  (<[Hash victim := true]> (DroppedTxs p0))
                  (AscTxsByGasPrice p0) (DescTxsByGasPrice p0)))
            [PublishAdded (stampPending now tx)]).
Proof.
  intros Hin Hdead Hfull Hpick Hrm. unfold txAdder, dropTx.
  rewrite Hfull, Hpick, Hrm.
  case_bool_decide as H1; [rewrite Hin in H1; by destruct H1|].
  case_bool_decide as H2; [rewrite Hdead in H2; by destruct H2|].
  done.
Qed.

Lemma tracks_empty C : 0 ≤ C → tracks C [] emptyPool.
Proof.
  intros HC. split; simpl; try done.
  - apply consistent_empty.
  - constructor.
  - unfold len. simpl. lia.
  - intros x Hx. by apply elem_of_nil in Hx.
  - intros d Hd. by apply elem_of_nil in Hd.
  - intros h [b Hb]. by rewrite lookup_empty in Hb.
Qed.

Lemma tracks_fresh C done p tx :
  tracks C done p → Hash tx ∉ Hash <$> done →
  Transactions p !! Hash tx = None ∧ DroppedTxs p !! Hash tx = None.
Proof.
  intros Ht Hnew. split.
  - destruct (Transactions p !! Hash tx) as [x|] eqn:E; [|done].
    exfalso. pose proof (cons_keys p (tr_cons _ _ _ Ht) _ _ E) as Hk.
    assert (x ∈ get (AscTxsByGasPrice p)) as Hx.
    { apply (cons_asc p (tr_cons _ _ _ Ht)). by rewrite Hk. }
    destruct (tr_from _ _ _ Ht x Hx) as (d & Hd & Hh & _).
    apply Hnew. rewrite <- Hk, <- Hh. by apply list_elem_of_fmap_2.
  - destruct (DroppedTxs p !! Hash tx) as [b|] eqn:E; [|done].
    exfalso.
    destruct (tr_dropped _ _ _ Ht (Hash tx)) as (d & Hd & Hh & _); [eauto|].
    apply Hnew. rewrite <- Hh. by apply list_elem_of_fmap_2.
Qed.

Lemma tracks_keep C now tx done p :
  tracks C done p → Hash tx ∉ Hash <$> done → Forall (λ d, gasLe d tx) done →
  Z.of_nat (length done) < C →
  tracks C (done ++ [tx]) (addTx (stampPending now tx) p).
Proof.
  intros Ht Hnew Hmax Hroom.
  destruct (tracks_fresh _ _ _ _ Ht Hnew) as [Hin Hdead].
  destruct Ht as [Hc Hord Hsort Hlen Hsize Hfrom Hall Hdrop Hcount].
  unfold len in *.
  split; rewrite ?addTx_Asc, ?addTx_Transactions, ?addTx_DroppedTxs;
    unfold len; simpl; rewrite ?Hord.
  - by apply consistent_addTx.
  - done.
  - by apply insertAt_sorted.
  - rewrite length_insertAt, length_app. simpl. lia.
  - rewrite length_insertAt, map_size_insert_None by done. lia.
  - intros x. rewrite elem_of_insertAt. intros [->|Hx].
    + exists tx. split; [apply elem_of_app; right; by apply list_elem_of_singleton|done].
    + destruct (Hfrom x Hx) as (d & Hd & ?). exists d.
      split; [apply elem_of_app; by left|done].
  - intros d. rewrite elem_of_app, list_elem_of_singleton. intros [Hd| ->].
    + destruct (Hall d Hd) as [[x Hx]|Hx]; [|by right].
      left. exists x. rewrite lookup_insert_ne; [done|].
      simpl. intros Heq. apply Hnew. rewrite Heq. by apply list_elem_of_fmap_2.
    + left. exists (stampPending now tx). apply lookup_insert_eq.
  - intros h Hh. destruct (Hdrop h Hh) as (d & Hd & Heq & Hmin).
    exists d. split; [apply elem_of_app; by left|]. split; [done|].
    intros x. rewrite elem_of_insertAt. intros [->|Hx]; [|by apply Hmin].
    simpl. rewrite Forall_forall in Hmax. by apply Hmax.
  - rewrite length_insertAt, length_app. simpl. lia.
Qed.

Lemma tracks_evict C now tx done p victim rest p0 :
  tracks C done p → Hash tx ∉ Hash <$> done → Forall (λ d, gasLe d tx) done →
  C ≤ Z.of_nat (length done) →
  get (AscTxsByGasPrice p) = victim :: rest →
  removeTx victim p = Some p0 →
  tracks C (done ++ [tx])
    (addTx (stampPending now tx)
       (mkPool (Transactions p0) (TxsFromAddress p0)
          (<[Hash victim := true]> (DroppedTxs p0))
          (AscTxsByGasPrice p0) (DescTxsByGasPrice p0))).
Proof.
  intros Ht Hnew Hmax Hfull Hasc Hrm.
  destruct (tracks_fresh _ _ _ _ Ht Hnew) as [Hin Hdead].
  destruct Ht as [Hc Hord Hsort Hlen Hsize Hfrom Hall Hdrop Hcount].
  assert (Hv : Transactions p !! Hash victim = Some victim).
  { apply (cons_asc p Hc). rewrite Hasc. by left. }
  assert (Hne : Hash victim ≠ Hash tx) by congruence.
  assert (Hvd : DroppedTxs p !! Hash victim = None).
  { destruct (DroppedTxs p !! Hash victim) eqn:E; [|done].
    rewrite (cons_dropped p Hc (Hash victim)) in Hv; [done|eauto]. }
  unfold len in *. rewrite Hasc in Hsort, Hlen, Hsize, Hfrom, Hdrop, Hcount.
  simpl in Hlen, Hsize, Hcount.
  apply StronglySorted_inv in Hsort as [Hsort Hmin].
  rewrite Forall_forall in Hmin, Hmax.
  assert (Hrest : removeAt victim (victim :: rest) = rest).
  { simpl. by rewrite N.eqb_refl. }
  split; rewrite ?addTx_Asc, ?addTx_Transactions, ?addTx_DroppedTxs;
    unfold len; simpl;
    rewrite ?(removeTx_Asc _ _ _ Hrm), ?(removeTx_Transactions _ _ _ Hrm),
            ?(removeTx_DroppedTxs _ _ _ Hrm); simpl; rewrite ?Hord, ?Hasc, ?Hrest.
  - apply consistent_addTx; simpl.
    + apply (consistent_dropTx victim p); [done|by exists victim|].
      unfold dropTx. rewrite Hrm.
      by rewrite (removeTx_Asc _ _ _ Hrm), (removeTx_Transactions _ _ _ Hrm),
                 (removeTx_DroppedTxs _ _ _ Hrm).
    + by rewrite lookup_delete_ne.
    + by rewrite lookup_insert_ne.
  - done.
  - by apply insertAt_sorted.
  - rewrite length_insertAt, length_app. simpl. lia.
  - rewrite length_insertAt, map_size_insert_None
      by (by rewrite lookup_delete_ne).
    rewrite map_size_delete_Some by eauto. lia.
  - intros x. rewrite elem_of_insertAt. intros [->|Hx].
    + exists tx. split; [apply elem_of_app; right; by apply list_elem_of_singleton|done].
    + destruct (Hfrom x) as (d & Hd & ?); [by right|]. exists d.
      split; [apply elem_of_app; by left|done].
  - intros d. rewrite elem_of_app, list_elem_of_singleton. intros [Hd| ->].
    + destruct (decide (Hash d = Hash victim)) as [Heq|Hdv].
      { right. rewrite Heq, lookup_insert_eq. eauto. }
      destruct (Hall d Hd) as [[x Hx]|[b Hb]].
      * left. exists x. rewrite lookup_insert_ne.
        -- by rewrite lookup_delete_ne.
        -- simpl. intros Heq. apply Hnew. rewrite Heq. by apply list_elem_of_fmap_2.
      * right. exists b. by rewrite lookup_insert_ne.
    + left. exists (stampPending now tx). apply lookup_insert_eq.
  - intros h. rewrite lookup_insert_is_Some. intros [<-|[Hhv Hh]].
    + destruct (Hfrom victim) as (d & Hd & Hdh & Hdp); [by left|].
      exists d. split; [apply elem_of_app; by left|]. split; [done|].
      intros x. rewrite elem_of_insertAt. intros [->|Hx].
      * simpl. by apply Hmax.
      * rewrite Hdp. by apply Hmin.
    + destruct (Hdrop h Hh) as (d & Hd & Heq & Hlow).
      exists d. split; [apply elem_of_app; by left|]. split; [done|].
      intros x. rewrite elem_of_insertAt. intros [->|Hx].
      * simpl. by apply Hmax.
      * apply Hlow. by right.
  - rewrite length_insertAt, length_app, map_size_insert_None by done.
    simpl. lia.
Qed.

Lemma needToDropTxs_tracks C done p :
  0 ≤ C → C + 1 < 2 ^ 64 → tracks C done p →
  needToDropTxs C p = bool_decide (C ≤ Z.of_nat (length done)).
Proof.
  intros H0 HC Ht. unfold needToDropTxs, uint64.
  pose proof (tr_len _ _ _ Ht) as Hlen. rewrite Z.mod_small by lia.
  destruct (Z.gtb_spec (Z.of_nat (len (AscTxsByGasPrice p)) + 1) C);
    case_bool_decide; (done || lia).
Qed.

Lemma tracks_txAdder C now tx done p :
  1 ≤ C → C + 1 < 2 ^ 64 →
  tracks C done p → Hash tx ∉ Hash <$> done → Forall (λ d, gasLe d tx) done →
  ∃ o, txAdder C now tx p = Some o ∧ reply o = true
       ∧ tracks C (done ++ [tx]) (poolAfter o).
Proof.
  intros H1 H2 Ht Hnew Hmax.
  destruct (tracks_fresh _ _ _ _ Ht Hnew) as [Hin Hdead].
  destruct (decide (C ≤ Z.of_nat (length done))) as [Hfull|Hroom].
  - destruct (get (AscTxsByGasPrice p)) as [|victim rest] eqn:Hasc.
    { pose proof (tr_len _ _ _ Ht) as Hl. unfold len in Hl.
      rewrite Hasc in Hl. simpl in Hl. lia. }
    destruct (removeTx_Some victim p) as [p0 Hrm]; [apply Ht| |].
    { exists victim. split; [|done].
      apply (cons_asc p (tr_cons _ _ _ Ht)). rewrite Hasc. by left. }
    eexists. split.
    { eapply txAdder_evict; [done|done| |by unfold pickTxWithLowestGasPrice; rewrite Hasc|done].
      rewrite needToDropTxs_tracks with (done := done) by (done || lia).
      by apply bool_decide_eq_true. }
    split; [done|]. simpl. by eapply tracks_evict.
  - eexists. split.
    { apply txAdder_keep; [done|done|].
      rewrite needToDropTxs_tracks with (done := done) by (done || lia).
      by apply bool_decide_eq_false. }
    split; [done|]. simpl. apply tracks_keep; [done..|lia].
Qed.

Lemma sorted_before_middle (l1 l2 : list MemPoolTx) x :
  StronglySorted gasLe (l1 ++ x :: l2) → Forall (λ d, gasLe d x) l1.
Proof.
  induction l1 as [|y l1 IH]; simpl; [by constructor|].
  intros Hs. apply StronglySorted_inv in Hs as [Hs Hy].
  constructor; [|by apply IH].
  rewrite Forall_forall in Hy. apply Hy. apply elem_of_app. right. by left.
Qed.

Lemma addAll_tracks C reqs :
  1 ≤ C → C + 1 < 2 ^ 64 →
  ∀ done p,
    tracks C done p →
    NoDup (Hash <$> (done ++ (snd <$> reqs))) →
    StronglySorted gasLe (done ++ (snd <$> reqs)) →
    ∃ p', addAll C reqs p = Some (p', length reqs)
          ∧ tracks C (done ++ (snd <$> reqs)) p'.
Proof.
  intros H1 H2. induction reqs as [|[now tx] rest IH]; intros done p Ht Hnd Hs.
  - simpl. exists p. by rewrite app_nil_r.
  - rewrite fmap_cons in Hnd, Hs |- *. cbn [snd] in Hnd, Hs |- *.
    cbn [addAll length].
    assert (E : done ++ tx :: (snd <$> rest) = (done ++ [tx]) ++ (snd <$> rest))
      by (by rewrite <- app_assoc).
    destruct (tracks_txAdder C now tx done p) as (o & Ho & Hr & Ht'); [done..| | |].
    + rewrite fmap_app in Hnd. apply NoDup_app in Hnd as (_ & Hdisj & _).
      intros Hin. apply (Hdisj _ Hin). simpl. by left.
    + by eapply sorted_before_middle.
    + rewrite Ho. rewrite E in Hnd, Hs.
      destruct (IH (done ++ [tx]) (poolAfter o)) as (p' & Hp' & Htr); [done..|].
      rewrite Hp', Hr, E. by exists p'.
Qed.

Lemma same_hash_same_tx (l : list MemPoolTx) a b :
  NoDup (Hash <$> l) → a ∈ l → b ∈ l → Hash a = Hash b → a = b.
Proof.
  induction l as [|x l IH]; simpl; intros Hnd Ha Hb Heq.
  - by apply elem_of_nil in Ha.
  - apply NoDup_cons in Hnd as [Hx Hnd].
    apply elem_of_cons in Ha as [->|Ha]; apply elem_of_cons in Hb as [->|Hb].
    + done.
    + exfalso. apply Hx. rewrite Heq. by apply list_elem_of_fmap_2.
    + exfalso. apply Hx. rewrite <- Heq. by apply list_elem_of_fmap_2.
    + by apply IH.
Qed.

(** With no room at all the first [Add] does not return: the closure looks
    for a victim in the empty list. *)
Lemma capacity_zero_add_panics :
  ¬ ∃ p n, addAll 0 [(10, sampleTx 1 7 0 10)] emptyPool = Some (p, n).
Proof. intros (p & n & H). vm_compute in H. discriminate H. Qed.

(** C2, amended. For a capacity [C] of at least one and more than [C]
    transactions of distinct hashes offered in the order of their gas price,
    lowest first, every [Add] is accepted, [C] transactions are in the pool
    at the end, the hashes of the others are in [DroppedTxs] and none of
    those paid more than one that stayed. *)
Theorem highest_gas_prices_survive (C : Z) (reqs : list (Z * MemPoolTx)) :
  1 ≤ C → C + 1 < 2 ^ 64 →
  NoDup (Hash <$> (snd <$> reqs)) →
  StronglySorted gasLe (snd <$> reqs) →
  C < Z.of_nat (length reqs) →
  ∃ p,
    addAll C reqs emptyPool = Some (p, length reqs)
    ∧ Z.of_nat (size (Transactions p)) = C
    ∧ Z.of_nat (size (DroppedTxs p)) = Z.of_nat (length reqs) - C
    ∧ (∀ tx, tx ∈ snd <$> reqs →
         (is_Some (Transactions p !! Hash tx) ∧ DroppedTxs p !! Hash tx = None)
         ∨ (is_Some (DroppedTxs p !! Hash tx) ∧ Transactions p !! Hash tx = None))
    ∧ (∀ kept gone,
         kept ∈ snd <$> reqs → gone ∈ snd <$> reqs →
         is_Some (Transactions p !! Hash kept) →
         is_Some (DroppedTxs p !! Hash gone) →
         GasPrice gone ≤ GasPrice kept).
Proof.
  intros H1 H2 Hnd Hs HN.
  destruct (addAll_tracks C reqs H1 H2 [] emptyPool) as (p & Hp & Ht);
    [apply tracks_empty; lia|done..|].
  simpl in Ht.
  destruct Ht as [Hc Hord Hsort Hlen Hsize Hfrom Hall Hdrop Hcount].
  rewrite length_fmap in Hlen, Hcount.
  exists p. split; [done|]. split; [lia|]. split; [lia|]. split.
  - intros tx Htx. destruct (Hall tx Htx) as [Hin|Hin].
    + left. split; [done|].
      destruct (DroppedTxs p !! Hash tx) eqn:E; [|done].
      rewrite (cons_dropped p Hc (Hash tx)) in Hin by eauto. by destruct Hin.
    + right. split; [done|]. by apply (cons_dropped p Hc).
  - intros kept gone Hk Hg [x Hx] Hgone.
    destruct (Hdrop _ Hgone) as (d & Hd & Hdh & Hlow).
    assert (d = gone) as -> by (by eapply same_hash_same_tx).
    pose proof (cons_keys p Hc _ _ Hx) as Hxk.
    assert (Hxin : x ∈ get (AscTxsByGasPrice p)).
    { apply (cons_asc p Hc). by rewrite Hxk. }
    destruct (Hfrom x Hxin) as (d' & Hd' & Hdh' & Hdp').
    assert (d' = kept) as -> by (eapply same_hash_same_tx; [done..|congruence]).
    rewrite Hdp'. by apply Hlow.
Qed.

Lemma highest_gas_prices_survive_witness :
  (1 ≤ 2 ∧ 2 + 1 < 2 ^ 64
   ∧ NoDup (Hash <$> (snd <$> scenario3))
   ∧ StronglySorted gasLe (snd <$> scenario3)
   ∧ 2 < Z.of_nat (length scenario3))
  ∧ ∃ p,
      addAll 2 scenario3 emptyPool = Some (p, 3%nat)
      ∧ Z.of_nat (size (Transactions p)) = 2
      ∧ Z.of_nat (size (DroppedTxs p)) = 1.
Proof.
  assert (H1 : 1 ≤ 2) by lia.
  assert (H2 : 2 + 1 < 2 ^ 64) by (vm_compute; reflexivity).
  assert (H3 : NoDup (Hash <$> (snd <$> scenario3)))
    by (apply (bool_decide_unpack _); vm_compute; exact I).
  assert (H4 : StronglySorted gasLe (snd <$> scenario3))
    by (apply (bool_decide_unpack _); vm_compute; exact I).
  assert (H5 : 2 < Z.of_nat (length scenario3)) by (vm_compute; reflexivity).
  split; [done|].
  destruct (highest_gas_prices_survive 2 scenario3 H1 H2 H3 H4 H5)
    as (p & Hp & Ht & Hd & _).
  exists p. split; [exact Hp|]. split; [exact Ht|exact Hd].
Defined.

(** ** C8 *)

Lemma sliceTo_beyond s x :
  Z.of_nat (length (default [] s)) < x → sliceTo s x = None.
Proof.
  destruct s as [l|]; simpl; intros H.
  - destruct (Z.leb_spec x (Z.of_nat (length l))); [lia|done].
  - destruct (Z.eqb_spec x 0); [lia|done].
Qed.

Lemma ListTxs_length o p :
  length (default [] (ListTxs o p))
  = len (match o with
         | ASC => AscTxsByGasPrice p
         | DESC => DescTxsByGasPrice p
         end).
Proof.
  unfold ListTxs, len.
  by destruct (get (match o with
                    | ASC => AscTxsByGasPrice p
                    | DESC => DescTxsByGasPrice p
                    end)).
Qed.

Lemma sliceTo_within l x :
  0 ≤ x ≤ Z.of_nat (length l) →
  sliceTo (Some l) x = Some (Some (take (Z.to_nat x) l)).
Proof.
  intros Hx. simpl. destruct (Z.leb_spec x (Z.of_nat (length l))); [done|lia].
Qed.

(** C8. [TopXWithHighGasPrice] and [TopXWithLowGasPrice] do not clamp [x]:
    asked for more transactions than the pool holds they panic, on the empty
    pool already for [x = 1]. *)
Theorem TopX_beyond_the_pool_panics (p : PendingPool) (n : nat) :
  TopXWithHighGasPrice p (Z.of_nat (len (DescTxsByGasPrice p)) + 1 + Z.of_nat n) = None
  ∧ TopXWithLowGasPrice p (Z.of_nat (len (AscTxsByGasPrice p)) + 1 + Z.of_nat n) = None
  ∧ TopXWithHighGasPrice emptyPool 1 = None.
Proof.
  split_and!; [| |done].
  - apply sliceTo_beyond. unfold DescListTxs. rewrite ListTxs_length. lia.
  - apply sliceTo_beyond. unfold AscListTxs. rewrite ListTxs_length. lia.
Qed.

(** ** C6 *)

(** C6. A probe that ends in an error still classifies: whatever verdict
    comes with the error, [Prune] sends a [Remove] for the transaction, and
    the pool drops it. In [samplePool], transaction 1 leaves after a probe
    that failed. *)
Theorem failed_probe_still_removes (now : Z) (tx : MemPoolTx)
    (verdict : bool) (err : string) :
  pruneOne now tx (verdict, Some err)
  = [RemoveRequest now
       (mkStatus (Hash tx) (if verdict then DROPPED else CONFIRMED))]
  ∧ is_Some (Transactions samplePool !! 1%N)
  ∧ (Transactions <$>
       exec 2 (pruneOne 20 (sampleTx 1 7 0 100) (false, Some "connection refused"))
         samplePool) = Some ∅.
Proof.
  split; [by destruct verdict|]. split; [by vm_compute; eexists|].
  vm_compute. reflexivity.
Qed.

(** ** C3 *)

(** C3. [FromMessagePack] hands the decoder a nil pointer: for every input,
    also for every output of [ToMessagePack], it returns nil and the error
    of the library, so nothing is there to encode again. *)
Theorem FromMessagePack_never_decodes
    (msgpack_decode : list Z → Result MemPoolTx) (data : list Z) :
  FromMessagePack msgpack_decode data
  = (None, Some "msgpack: Decode(non-settable *data.MemPoolTx)").
Proof. reflexivity. Qed.

(** ** C5 *)


Lemma written_rwCall c s :
  written (snd (rwCall c s))
  = written s ++ match c with Write chunk => [chunk] | Flush => [] end.
Proof.
  unfold written, rwCall. simpl. rewrite omap_app. by destruct c.
Qed.

Section GossipProperties.

Variable UnmarshalPubSubMessage : list Z → option MemPoolTx.

Lemma process_written peerId data s :
  written (snd (process UnmarshalPubSubMessage peerId data s))
  = written s
    ++ match UnmarshalPubSubMessage data with
       | Some t => if String.eqb (ReceivedFrom t) peerId then [] else [frame data]
       | None => []
       end.
Proof.
  unfold process. destruct (UnmarshalPubSubMessage data) as [t|]; [|by rewrite app_nil_r].
  destruct (String.eqb (ReceivedFrom t) peerId); [by rewrite app_nil_r|].
  assert (E : Nat.min (length (frame data) - 4) (length data) = length data).
  { unfold frame, PutUint32. rewrite length_app. simpl. lia. }
  rewrite E, Nat.eqb_refl. unfold rwCall, written. simpl.
  destruct (faults s) as [|[] [|[] ?]]; simpl;
    rewrite ?omap_app; simpl; by rewrite ?app_nil_r.
Qed.


End GossipProperties.



(** ** C9 *)

Lemma decimal_ge s acc m : decimal s acc = Some m → 0 ≤ acc → acc ≤ m.
Proof.
  revert acc. induction s as [|a rest IH]; simpl; intros acc.
  - intros [= <-]. lia.
  - destruct ((48 <=? _) && (_ <=? 57)) eqn:E; [|done].
    apply andb_true_iff in E as [E1 E2]. apply Z.leb_le in E1, E2.
    intros Hd Hacc. apply IH in Hd; lia.
Qed.



Lemma prefix_append sub s :
  String.prefix sub s = true ↔ ∃ b, s = sub +:+ b.
Proof.
  revert s. induction sub as [|a sub IH]; intros s.
  - split; [intros _; by exists s|by destruct s].
  - destruct s as [|c s']; simpl; [split; [done|by intros [b ?]]|].
    destruct (Ascii.ascii_dec a c) as [->|Hne].
    + rewrite IH. split; intros [b Hb]; exists b; [by rewrite Hb|].
      simpl in Hb. by injection Hb.
    + split; [done|]. intros [b Hb]. simpl in Hb. by injection Hb.
Qed.

Lemma Contains_substring s sub :
  mempool.Contains s sub = true ↔ ∃ a b, s = a +:+ sub +:+ b.
Proof.
  induction s as [|c s IH]; cbn [mempool.Contains];
    rewrite orb_true_iff, prefix_append.
  - split.
    + intros [[b Hb]|]; [by exists "", b|done].
    + intros (a & b & Hab). left. exists b. by destruct a.
  - rewrite IH. split.
    + intros [[b Hb]|(a & b & Hab)]; [by exists "", b|].
      exists (String c a), b. simpl. by rewrite Hab.
    + intros (a & b & Hab). destruct a as [|c' a]; simpl in Hab.
      * left. by exists b.
      * right. exists a, b. by injection Hab.
Qed.





(** ** C10 *)

Lemma copied_fresh mem index l :
  holds mem index l → get l ≠ [] →
  freshCopyOf mem (copied mem index).1 (copied mem index).2 (get l).
Proof.
  intros (Hcells & Hlen & Hdom) Hne. unfold len in Hlen.
  destruct index as [|b n c].
  { simpl in Hlen. destruct (get l); [done|discriminate]. }
  simpl in Hlen. subst n.
  pose proof (is_fresh (dom mem)) as Hfresh.
  assert (Hb : b ≠ fresh (dom mem)) by (intros ->; done).
  exists (fresh (dom mem)). unfold copied, make, copy. simpl.
  split; [done|]. split; [done|].
  rewrite lookup_insert_eq, lookup_insert_ne by done. simpl.
  rewrite insert_insert_eq. f_equal.
  simpl in Hcells. rewrite Nat.min_id, Hcells.
  rewrite take_ge by (by rewrite length_fmap).
  rewrite drop_ge by (by rewrite length_replicate).
  apply app_nil_r.
Qed.

Lemma freshCopyOf_cells mem mem' reply l :
  freshCopyOf mem mem' reply l →
  cells mem' reply = Some <$> l
  ∧ ∀ a n c, a ∈ dom mem → cells mem' (slice a n c) = cells mem (slice a n c).
Proof.
  intros (a & -> & Ha & ->). split.
  - simpl. rewrite lookup_insert_eq. simpl.
    apply take_ge. by rewrite length_fmap.
  - intros b n c Hb. simpl. rewrite lookup_insert_ne; [done|]. by intros ->.
Qed.

Lemma holds_empty mem s l : holds mem s l → get l = [] → sliceLen s = 0%nat.
Proof. intros (_ & Hlen & _) Hl. unfold len in Hlen. by rewrite Hlen, Hl. Qed.

Lemma holds_nonempty mem s l :
  holds mem s l → get l ≠ [] → (sliceLen s =? 0)%nat = false.
Proof.
  intros (_ & Hlen & _) Hl. unfold len in Hlen. rewrite Hlen.
  apply Nat.eqb_neq. by destruct (get l).
Qed.

Lemma consistent_no_txs p :
  consistent p → Transactions p = ∅ →
  get (AscTxsByGasPrice p) = [] ∧ get (DescTxsByGasPrice p) = [].
Proof.
  intros Hc Hempty. split.
  - destruct (get (AscTxsByGasPrice p)) as [|x l] eqn:E; [done|].
    assert (Hx : x ∈ get (AscTxsByGasPrice p)) by (rewrite E; by left).
    apply (cons_asc p Hc) in Hx as [Hx _].
    by rewrite Hempty, lookup_empty in Hx.
  - destruct (get (DescTxsByGasPrice p)) as [|x l] eqn:E; [done|].
    assert (Hx : x ∈ get (DescTxsByGasPrice p)) by (rewrite E; by left).
    apply (cons_desc p Hc) in Hx as [Hx _].
    by rewrite Hempty, lookup_empty in Hx.
Qed.

(** C10. In a memory that holds the indexes of a pool the actor can be in:
    when the pool has no transactions, [List(ASC)] and [List(DESC)] answer
    nil; [TxsFrom(addr)] answers nil when the address has no entry and when
    the list of its entry is empty; in every other case the answer is a
    slice over an array that was not in the memory before, with the
    references of the index in it. *)
Theorem replies_are_nil_or_fresh_copies (PendingPoolSize : Z)
    (p : PendingPool) (mem : gmap nat (list (option MemPoolTx)))
    (idx : PoolSlices) :
  reachable PendingPoolSize p → represents mem idx p →
  (Transactions p = ∅ →
     onListTxs ASC idx mem = (mem, nilSlice)
     ∧ onListTxs DESC idx mem = (mem, nilSlice))
  ∧ (get (AscTxsByGasPrice p) = [] → onListTxs ASC idx mem = (mem, nilSlice))
  ∧ (get (DescTxsByGasPrice p) = [] → onListTxs DESC idx mem = (mem, nilSlice))
  ∧ (∀ addr, TxsFromAddress p !! addr = None →
       onTxsFromA addr idx mem = (mem, nilSlice))
  ∧ (∀ addr l, TxsFromAddress p !! addr = Some l → get l = [] →
       onTxsFromA addr idx mem = (mem, nilSlice))
  ∧ (get (AscTxsByGasPrice p) ≠ [] →
       freshCopyOf mem (onListTxs ASC idx mem).1 (onListTxs ASC idx mem).2
         (get (AscTxsByGasPrice p)))
  ∧ (get (DescTxsByGasPrice p) ≠ [] →
       freshCopyOf mem (onListTxs DESC idx mem).1 (onListTxs DESC idx mem).2
         (get (DescTxsByGasPrice p)))
  ∧ (∀ addr l, TxsFromAddress p !! addr = Some l → get l ≠ [] →
       freshCopyOf mem (onTxsFromA addr idx mem).1 (onTxsFromA addr idx mem).2
         (get l)).
Proof.
  intros Hreach (Hasc & Hdesc & Hfrom).
  apply reachable_consistent in Hreach. split_and!.
  - intros Hempty.
    destruct (consistent_no_txs p Hreach Hempty) as [Ha Hd].
    unfold onListTxs.
    by rewrite (holds_empty _ _ _ Hasc Ha), (holds_empty _ _ _ Hdesc Hd).
  - intros Ha. unfold onListTxs. by rewrite (holds_empty _ _ _ Hasc Ha).
  - intros Hd. unfold onListTxs. by rewrite (holds_empty _ _ _ Hdesc Hd).
  - intros addr Hnone. unfold onTxsFromA. specialize (Hfrom addr).
    rewrite Hnone in Hfrom. by destruct (fromSlices idx !! addr).
  - intros addr l Hl Hnil. unfold onTxsFromA. specialize (Hfrom addr).
    rewrite Hl in Hfrom. destruct (fromSlices idx !! addr) as [s|]; [|done].
    by rewrite (holds_empty _ _ _ Hfrom Hnil).
  - intros Hne. unfold onListTxs.
    rewrite (holds_nonempty _ _ _ Hasc Hne). by apply copied_fresh.
  - intros Hne. unfold onListTxs.
    rewrite (holds_nonempty _ _ _ Hdesc Hne). by apply copied_fresh.
  - intros addr l Hl Hne. unfold onTxsFromA. specialize (Hfrom addr).
    rewrite Hl in Hfrom. destruct (fromSlices idx !! addr) as [s|]; [|done].
    rewrite (holds_nonempty _ _ _ Hfrom Hne). by apply copied_fresh.
Qed.

Lemma onePool_reachable : reachable 2 onePool.
Proof.
  apply (reachable_exec 2 [AddRequest 10 (sampleTx 1 7 0 100)] emptyPool);
    [apply reach_init|vm_compute; reflexivity].
Qed.

Lemma onePool_represented : represents oneMemory oneSlices onePool.
Proof.
  assert (Hfrom : TxsFromAddress onePool
                  = {[ 7%N := mkList FromAddressAsc
                                [stampPending 10 (sampleTx 1 7 0 100)] ]})
    by (vm_compute; reflexivity).
  split_and!.
  - split_and!; [vm_compute; reflexivity..|].
    apply (bool_decide_unpack _). vm_compute. exact I.
  - split_and!; [vm_compute; reflexivity..|].
    apply (bool_decide_unpack _). vm_compute. exact I.
  - intros addr. rewrite Hfrom. simpl.
    destruct (decide (addr = 7%N)) as [->|Hne].
    + rewrite !lookup_singleton_eq.
      split_and!; [vm_compute; reflexivity..|].
      apply (bool_decide_unpack _). vm_compute. exact I.
    + by rewrite !lookup_singleton_ne.
Qed.

Lemma replies_are_nil_or_fresh_copies_witness :
  (reachable 2 onePool ∧ represents oneMemory oneSlices onePool
   ∧ get (AscTxsByGasPrice onePool) ≠ []
   ∧ TxsFromAddress onePool !! 8%N = None)
  ∧ freshCopyOf oneMemory
      (onListTxs ASC oneSlices oneMemory).1 (onListTxs ASC oneSlices oneMemory).2
      (get (AscTxsByGasPrice onePool))
  ∧ onTxsFromA 8 oneSlices oneMemory = (oneMemory, nilSlice).
Proof.
  assert (H1 : get (AscTxsByGasPrice onePool) ≠ []) by (vm_compute; discriminate).
  assert (H2 : TxsFromAddress onePool !! 8%N = None) by (vm_compute; reflexivity).
  split; [split_and!; [exact onePool_reachable|exact onePool_represented|done..]|].
  destruct (replies_are_nil_or_fresh_copies 2 onePool oneMemory oneSlices
              onePool_reachable onePool_represented)
    as (_ & _ & _ & Hnone & _ & Hasc & _).
  split; [exact (Hasc H1)|exact (Hnone _ H2)].
Defined.

(** * More properties of the code *)

(** ** Publications and admission *)

Lemma txAdder_rejects cap now tx p :
  is_Some (Transactions p !! Hash tx) ∨ is_Some (DroppedTxs p !! Hash tx) →
  txAdder cap now tx p = Some (mkOutcome false (Some tx) p []).
Proof.
  intros Hdup. unfold txAdder.
  case_bool_decide; [done|]. case_bool_decide; [done|]. by destruct Hdup.
Qed.

Lemma txAdder_cases cap now tx p o :
  txAdder cap now tx p = Some o →
  (reply o = false ∧ o = mkOutcome false (Some tx) p []
   ∧ (is_Some (Transactions p !! Hash tx) ∨ is_Some (DroppedTxs p !! Hash tx)))
  ∨ (reply o = true
     ∧ Transactions p !! Hash tx = None ∧ DroppedTxs p !! Hash tx = None
     ∧ txAfter o = Some (stampPending now tx)
     ∧ published o = [PublishAdded (stampPending now tx)]
     ∧ ((needToDropTxs cap p = false
         ∧ poolAfter o = addTx (stampPending now tx) p)
        ∨ (∃ victim p0,
             needToDropTxs cap p = true
             ∧ pickTxWithLowestGasPrice p = Some victim
             ∧ removeTx victim p = Some p0
             ∧ poolAfter o
               = addTx (stampPending now tx)
                   (mkPool (Transactions p0) (TxsFromAddress p0)
                      (<[Hash victim := true]> (DroppedTxs p0))
                      (AscTxsByGasPrice p0) (DescTxsByGasPrice p0))))).
Proof.
  unfold txAdder.
  case_bool_decide as Hin; [intros [= <-]; left; eauto|].
  case_bool_decide as Hdead; [intros [= <-]; left; eauto|].
  apply eq_None_not_Some in Hin, Hdead.
  destruct (needToDropTxs cap p) eqn:Hneed.
  - destruct (pickTxWithLowestGasPrice p) as [victim|] eqn:Hpick; [|done].
    unfold dropTx. destruct (removeTx victim p) as [p0|] eqn:Hrm; [|done].
    intros [= <-]. right. simpl. split_and!; try done.
    right. by exists victim, p0.
  - intros [= <-]. right. simpl. split_and!; try done. by left.
Qed.

(** X1. In a pool the actor can be in, an [Add] publishes the entry of the
    transaction it stamped when it accepts, and nothing when it rejects; in
    no case does it publish an exit, also not for the victim it evicts,
    whose hash leaves [Transactions] for [DroppedTxs]. *)
Theorem eviction_is_silent (PendingPoolSize : Z) (now : Z) (tx : MemPoolTx)
    (p : PendingPool) (o : Outcome) :
  reachable PendingPoolSize p →
  txAdder PendingPoolSize now tx p = Some o →
  published o = (if reply o then [PublishAdded (stampPending now tx)] else [])
  ∧ (reply o = true →
       Transactions (poolAfter o) !! Hash tx = Some (stampPending now tx))
  ∧ (∀ victim,
       needToDropTxs PendingPoolSize p = true → reply o = true →
       pickTxWithLowestGasPrice p = Some victim →
       Transactions (poolAfter o) !! Hash victim = None
       ∧ DroppedTxs (poolAfter o) !! Hash victim = Some true).
Proof.
  intros Hreach Ho. apply reachable_consistent in Hreach.
  apply txAdder_cases in Ho
    as [(Hr & -> & _)|(Hr & Hin & Hdead & _ & Hpub & Hpool)].
  - simpl. split_and!; [done|done|]. intros victim _ Hf. discriminate Hf.
  - rewrite Hr, Hpub. split; [done|]. split.
    + intros _. destruct Hpool as [[_ ->]|(v & p0 & _ & _ & _ & ->)];
        rewrite addTx_Transactions; apply lookup_insert_eq.
    + intros victim Hneed _ Hpick.
      destruct Hpool as [[Hn _]|(v & p0 & _ & Hv & Hrm & ->)]; [congruence|].
      rewrite Hpick in Hv. injection Hv as <-.
      pose proof (head_indexed _ _ Hreach Hpick) as Hvin.
      assert (Hne : Hash tx ≠ Hash victim) by congruence.
      rewrite addTx_Transactions, addTx_DroppedTxs. simpl.
      rewrite (removeTx_Transactions _ _ _ Hrm).
      rewrite lookup_insert_ne, lookup_delete_eq, lookup_insert_eq by done.
      done.
Qed.

Lemma fullPool_reachable : reachable 2 fullPool.
Proof.
  apply (reachable_exec 2 fullRequests emptyPool); [apply reach_init|].
  vm_compute. reflexivity.
Qed.

Lemma eviction_is_silent_witness :
  (reachable 2 fullPool
   ∧ txAdder 2 14 (sampleTx 3 8 0 120) fullPool
     = Some (mkOutcome true (Some (stampPending 14 (sampleTx 3 8 0 120)))
               evictedPool
               [PublishAdded (stampPending 14 (sampleTx 3 8 0 120))]))
  ∧ Transactions evictedPool !! 2%N = None
  ∧ DroppedTxs evictedPool !! 2%N = Some true.
Proof.
  assert (H2 : txAdder 2 14 (sampleTx 3 8 0 120) fullPool
     = Some (mkOutcome true (Some (stampPending 14 (sampleTx 3 8 0 120)))
               evictedPool
               [PublishAdded (stampPending 14 (sampleTx 3 8 0 120))]))
    by (vm_compute; reflexivity).
  split; [split; [exact fullPool_reachable|exact H2]|].
  destruct (eviction_is_silent 2 14 _ _ _ fullPool_reachable H2) as (_ & _ & Hvictim).
  apply (Hvictim (stampPending 11 (sampleTx 2 7 1 90)));
    vm_compute; reflexivity.
Defined.

(** ** Batches offered again *)

Lemma txAdder_known cap now tx p o :
  txAdder cap now tx p = Some o →
  known (poolAfter o) (Hash tx) ∧ ∀ h, known p h → known (poolAfter o) h.
Proof.
  intros Ho. apply txAdder_cases in Ho
    as [(_ & -> & Hk)|(_ & _ & _ & _ & _ & Hpool)]; [done|].
  unfold known.
  destruct Hpool as [[_ ->]|(v & p0 & _ & _ & Hrm & ->)];
    rewrite addTx_Transactions, addTx_DroppedTxs; simpl.
  - split; [left; by rewrite lookup_insert_eq|].
    intros h [Hh|Hh]; [left|by right].
    rewrite lookup_insert_is_Some. destruct (decide (Hash tx = h)); eauto.
  - rewrite (removeTx_Transactions _ _ _ Hrm), (removeTx_DroppedTxs _ _ _ Hrm).
    split; [left; by rewrite lookup_insert_eq|].
    intros h [Hh|Hh].
    + destruct (decide (Hash v = h)) as [<-|Hv];
        [right; by rewrite lookup_insert_eq|].
      left. rewrite lookup_insert_is_Some.
      destruct (decide (Hash tx = h)); [by left|right].
      split; [done|]. by rewrite lookup_delete_ne.
    + right. rewrite lookup_insert_is_Some.
      destruct (decide (Hash v = h)); eauto.
Qed.

Lemma addAll_known cap reqs p p' n :
  addAll cap reqs p = Some (p', n) →
  (∀ h, known p h → known p' h) ∧ (∀ h, h ∈ offered reqs → known p' h).
Proof.
  revert p n. induction reqs as [|[now tx] rest IH]; intros p n; cbn [addAll].
  - intros [= <- <-]. split; [done|]. intros h Hh. by apply elem_of_nil in Hh.
  - destruct (txAdder cap now tx p) as [o|] eqn:Ho; [|done].
    destruct (addAll cap rest (poolAfter o)) as [[p1 c]|] eqn:Hrest; [|done].
    intros [= <- <-]. destruct (IH _ _ Hrest) as [Hmono Hall].
    destruct (txAdder_known _ _ _ _ _ Ho) as [Hnew Hold].
    split; [eauto|]. intros h. unfold offered. rewrite fmap_cons, elem_of_cons.
    intros [->|Hh]; simpl; eauto.
Qed.

Lemma addAll_of_known cap reqs p :
  (∀ h, h ∈ offered reqs → known p h) → addAll cap reqs p = Some (p, 0%nat).
Proof.
  induction reqs as [|[now tx] rest IH]; cbn [addAll]; intros Hk; [done|].
  rewrite txAdder_rejects by (apply Hk; unfold offered; rewrite fmap_cons; by left).
  simpl. rewrite IH; [done|]. intros h Hh. apply Hk.
  unfold offered. rewrite fmap_cons. by right.
Qed.

(** X2. A batch that was added is refused when it is offered again: every
    hash of it is by then in [Transactions] or in [DroppedTxs], so a later
    batch made of such hashes is rejected whole, counts zero and leaves the
    pool as it is. *)
Theorem batch_offered_again_is_refused (PendingPoolSize : Z)
    (reqs again : list (Z * MemPoolTx)) (p p' : PendingPool) (n : nat) :
  addAll PendingPoolSize reqs p = Some (p', n) →
  offered again ⊆ offered reqs →
  addAll PendingPoolSize again p' = Some (p', 0%nat).
Proof.
  intros Hfirst Hsub. apply addAll_of_known.
  intros h Hh. apply (addAll_known _ _ _ _ _ Hfirst). by apply Hsub.
Qed.

Lemma batch_offered_again_is_refused_witness :
  (addAll 2 scenario3 emptyPool
   = Some (default emptyPool (fst <$> addAll 2 scenario3 emptyPool), 3%nat)
   ∧ offered [(20, sampleTx 1 7 0 10); (21, sampleTx 3 8 0 30)]
     ⊆ offered scenario3)
  ∧ addAll 2 [(20, sampleTx 1 7 0 10); (21, sampleTx 3 8 0 30)]
      (default emptyPool (fst <$> addAll 2 scenario3 emptyPool))
    = Some (default emptyPool (fst <$> addAll 2 scenario3 emptyPool), 0%nat).
Proof.
  assert (H1 : addAll 2 scenario3 emptyPool
   = Some (default emptyPool (fst <$> addAll 2 scenario3 emptyPool), 3%nat))
    by (vm_compute; reflexivity).
  assert (H2 : offered [(20, sampleTx 1 7 0 10); (21, sampleTx 3 8 0 30)]
               ⊆ offered scenario3)
    by (apply (bool_decide_unpack _); vm_compute; exact I).
  split; [done|].
  exact (batch_offered_again_is_refused 2 _ _ _ _ _ H1 H2).
Defined.

(** ** Removal *)

Lemma txRemover_cases now txStat p o :
  txRemover now txStat p = Some o →
  (Transactions p !! StatHash txStat = None ∧ o = mkOutcome false None p [])
  ∨ (∃ tx tx2 p',
       Transactions p !! StatHash txStat = Some tx
       ∧ Hash tx2 = Hash tx ∧ From tx2 = From tx
       ∧ removeTx tx2 p = Some p'
       ∧ o = mkOutcome true (Some tx2) p' [PublishRemoved tx2]).
Proof.
  unfold txRemover.
  destruct (Transactions p !! StatHash txStat) as [tx|] eqn:Htx;
    [|intros [= <-]; by left].
  set (tx1 := if decide (Status txStat = DROPPED) then _ else _).
  set (tx2 := if decide (Status txStat = CONFIRMED) then _ else _).
  assert (Hash tx2 = Hash tx ∧ From tx2 = From tx) as [Hh Hf].
  { unfold tx2, tx1. by repeat case_decide. }
  destruct (removeTx tx2 p) as [p'|] eqn:Hrm; [|done].
  intros [= <-]. right. by exists tx, tx2, p'.
Qed.

(** X3. In a pool the actor can be in, a [Remove] that succeeded is not
    repeated: a second [Remove] of the hash, for whatever reason, answers
    false, leaves the pool as it is and publishes nothing. *)
Theorem remove_twice_is_refused (PendingPoolSize : Z) (now now' : Z)
    (txStat : TxStatus) (again : TxState) (p : PendingPool) (o : Outcome) :
  reachable PendingPoolSize p →
  txRemover now txStat p = Some o → reply o = true →
  txRemover now' (mkStatus (StatHash txStat) again) (poolAfter o)
  = Some (mkOutcome false None (poolAfter o) []).
Proof.
  intros Hreach Ho Hr. apply reachable_consistent in Hreach.
  apply txRemover_cases in Ho
    as [[_ ->]|(tx & tx2 & p' & Htx & Hh & _ & Hrm & ->)]; [done|].
  simpl. unfold txRemover. simpl.
  rewrite (removeTx_Transactions _ _ _ Hrm), Hh,
    (cons_keys p Hreach _ _ Htx), lookup_delete_eq.
  done.
Qed.

Lemma remove_twice_is_refused_witness :
  (reachable 2 fullPool
   ∧ txRemover 20 (mkStatus 1 CONFIRMED) fullPool
     = Some (mkOutcome true (Some (stampConfirmed 20 (stampPending 10 (sampleTx 1 7 0 100))))
               (default emptyPool
                  (exec 2 [RemoveRequest 20 (mkStatus 1 CONFIRMED)] fullPool))
               [PublishRemoved (stampConfirmed 20 (stampPending 10 (sampleTx 1 7 0 100)))])
   ∧ true = true)
  ∧ txRemover 21 (mkStatus 1 DROPPED)
      (default emptyPool
         (exec 2 [RemoveRequest 20 (mkStatus 1 CONFIRMED)] fullPool))
    = Some (mkOutcome false None
              (default emptyPool
                 (exec 2 [RemoveRequest 20 (mkStatus 1 CONFIRMED)] fullPool)) []).
Proof.
  assert (H : txRemover 20 (mkStatus 1 CONFIRMED) fullPool
     = Some (mkOutcome true (Some (stampConfirmed 20 (stampPending 10 (sampleTx 1 7 0 100))))
               (default emptyPool
                  (exec 2 [RemoveRequest 20 (mkStatus 1 CONFIRMED)] fullPool))
               [PublishRemoved (stampConfirmed 20 (stampPending 10 (sampleTx 1 7 0 100)))]))
    by (vm_compute; reflexivity).
  split; [split_and!; [exact fullPool_reachable|exact H|reflexivity]|].
  exact (remove_twice_is_refused 2 20 21 _ DROPPED _ _ fullPool_reachable H eq_refl).
Defined.

(** X4. Removal leaves no tombstone: in a pool of capacity at least one that
    the actor can be in, after a [Remove] that succeeded an [Add] of a
    transaction with the removed hash is accepted again, unlike one with an
    evicted hash. *)
Theorem removed_hash_is_admitted_again (PendingPoolSize : Z) (now now' : Z)
    (txStat : TxStatus) (tx : MemPoolTx) (p : PendingPool) (o : Outcome) :
  1 ≤ PendingPoolSize → reachable PendingPoolSize p →
  txRemover now txStat p = Some o → reply o = true →
  Hash tx = StatHash txStat →
  ∃ o', txAdder PendingPoolSize now' tx (poolAfter o) = Some o'
        ∧ reply o' = true
        ∧ Transactions (poolAfter o') !! Hash tx = Some (stampPending now' tx).
Proof.
  intros Hcap Hreach Ho Hr Hh.
  assert (Hreach' : reachable PendingPoolSize (poolAfter o))
    by (by apply (reach_serve _ p (RemoveRequest now txStat))).
  apply reachable_consistent in Hreach, Hreach'.
  destruct (serve_returns PendingPoolSize (AddRequest now' tx) _ Hcap Hreach')
    as [o' Ho'].
  simpl in Ho'. exists o'. split; [done|].
  apply txRemover_cases in Ho
    as [[_ ->]|(tx0 & tx2 & p' & Htx & Hh2 & _ & Hrm & ->)]; [done|].
  simpl in *.
  pose proof (cons_keys p Hreach _ _ Htx) as Hkey.
  assert (Hgone : Transactions p' !! Hash tx = None).
  { rewrite (removeTx_Transactions _ _ _ Hrm), Hh, Hh2, Hkey.
    apply lookup_delete_eq. }
  assert (Hlive : DroppedTxs p' !! Hash tx = None).
  { rewrite (removeTx_DroppedTxs _ _ _ Hrm), Hh.
    destruct (DroppedTxs p !! StatHash txStat) eqn:E; [|done].
    rewrite (cons_dropped p Hreach (StatHash txStat)) in Htx; [done|eauto]. }
  apply txAdder_cases in Ho'
    as [(_ & _ & [[? Hk]|[? Hk]])|(Hr' & _ & _ & _ & _ & Hpool)];
    [congruence|congruence|].
  split; [done|].
  destruct Hpool as [[_ ->]|(v & p0 & _ & _ & _ & ->)];
    rewrite addTx_Transactions; apply lookup_insert_eq.
Qed.

Lemma removed_hash_is_admitted_again_witness :
  (1 ≤ 2 ∧ reachable 2 fullPool
   ∧ txRemover 20 (mkStatus 1 CONFIRMED) fullPool
     = Some (mkOutcome true (Some (stampConfirmed 20 (stampPending 10 (sampleTx 1 7 0 100))))
               (default emptyPool
                  (exec 2 [RemoveRequest 20 (mkStatus 1 CONFIRMED)] fullPool))
               [PublishRemoved (stampConfirmed 20 (stampPending 10 (sampleTx 1 7 0 100)))])
   ∧ Hash (sampleTx 1 7 0 100) = 1%N)
  ∧ ∃ o', txAdder 2 30 (sampleTx 1 7 0 100)
            (default emptyPool
               (exec 2 [RemoveRequest 20 (mkStatus 1 CONFIRMED)] fullPool))
          = Some o' ∧ reply o' = true.
Proof.
  assert (H0 : 1 ≤ 2) by lia.
  assert (H : txRemover 20 (mkStatus 1 CONFIRMED) fullPool
     = Some (mkOutcome true (Some (stampConfirmed 20 (stampPending 10 (sampleTx 1 7 0 100))))
               (default emptyPool
                  (exec 2 [RemoveRequest 20 (mkStatus 1 CONFIRMED)] fullPool))
               [PublishRemoved (stampConfirmed 20 (stampPending 10 (sampleTx 1 7 0 100)))]))
    by (vm_compute; reflexivity).
  split; [split_and!; [exact H0|exact fullPool_reachable|exact H|reflexivity]|].
  destruct (removed_hash_is_admitted_again 2 20 30 _ (sampleTx 1 7 0 100) _ _
              H0 fullPool_reachable H eq_refl eq_refl) as (o' & Ho' & Hr & _).
  by exists o'.
Defined.

(** ** Capacity *)

Lemma addTx_Desc tx p :
  DescTxsByGasPrice (addTx tx p) = Insert (DescTxsByGasPrice p) tx.
Proof.
  unfold addTx, allocateFor. by destruct (TxsFromAddress p !! From tx).
Qed.

Lemma removeTx_Desc tx p p' :
  removeTx tx p = Some p' →
  DescTxsByGasPrice p' = Remove (DescTxsByGasPrice p) tx.
Proof.
  unfold removeTx. destruct (TxsFromAddress p !! From tx); [|done].
  by intros [= <-].
Qed.

Lemma removeTx_sizes tx tx0 p p' :
  consistent p → Transactions p !! Hash tx = Some tx0 →
  removeTx tx p = Some p' →
  S (size (Transactions p')) = size (Transactions p)
  ∧ S (len (AscTxsByGasPrice p')) = len (AscTxsByGasPrice p)
  ∧ S (len (DescTxsByGasPrice p')) = len (DescTxsByGasPrice p).
Proof.
  intros Hc Htx Hrm. pose proof (cons_keys p Hc _ _ Htx) as Hkey.
  rewrite (removeTx_Transactions _ _ _ Hrm), (removeTx_Asc _ _ _ Hrm),
    (removeTx_Desc _ _ _ Hrm).
  unfold len. simpl. split_and!.
  - rewrite map_size_delete_Some by eauto.
    assert (size (Transactions p) ≠ 0%nat); [|lia].
    intros Hz. apply map_size_empty_iff in Hz. by rewrite Hz in Htx.
  - apply length_removeAt. exists tx0. split; [|done].
    apply (cons_asc p Hc). by rewrite Hkey.
  - apply length_removeAt. exists tx0. split; [|done].
    apply (cons_desc p Hc). by rewrite Hkey.
Qed.

(** X5. Invariant 3. For a capacity whose successor fits 64 bits, every pool
    the actor can be in holds at most that many transactions, both
    gas-price indexes have as many entries as [Transactions] has keys, and
    [Count] answers that number. *)
Theorem pool_never_exceeds_capacity (PendingPoolSize : Z) (p : PendingPool) :
  0 ≤ PendingPoolSize → PendingPoolSize + 1 < 2 ^ 64 →
  reachable PendingPoolSize p →
  Z.of_nat (size (Transactions p)) ≤ PendingPoolSize
  ∧ len (AscTxsByGasPrice p) = size (Transactions p)
  ∧ len (DescTxsByGasPrice p) = size (Transactions p)
  ∧ Count p = Z.of_nat (size (Transactions p)).
Proof.
  intros H0 Hcap Hreach.
  assert (Hpow : 2 ^ 64 = 18446744073709551616) by reflexivity.
  assert (Z.of_nat (size (Transactions p)) ≤ PendingPoolSize
          ∧ len (AscTxsByGasPrice p) = size (Transactions p)
          ∧ len (DescTxsByGasPrice p) = size (Transactions p)) as (Hb & Ha & Hd).
  2:{ split_and!; try done. unfold Count, uint64. rewrite Ha.
      apply Z.mod_small. lia. }
  induction Hreach as [|p req o Hreach IH Hserve]; [by vm_compute|].
  destruct IH as (Hb & Ha & Hd).
  pose proof (reachable_consistent _ _ Hreach) as Hc.
  destruct req as [now tx|now txStat]; simpl in Hserve.
  - apply txAdder_cases in Hserve
      as [(_ & -> & _)|(_ & Hin & _ & _ & _ & Hpool)]; [done|].
    destruct Hpool as [[Hneed ->]|(v & p0 & Hneed & Hpick & Hrm & ->)];
      rewrite addTx_Transactions, addTx_Asc, addTx_Desc; unfold len; simpl;
      rewrite !length_insertAt.
    + rewrite map_size_insert_None by done. unfold len in *.
      unfold needToDropTxs, uint64, len in Hneed.
      rewrite Z.mod_small in Hneed by lia.
      destruct (Z.gtb_spec (Z.of_nat (length (get (AscTxsByGasPrice p))) + 1)
                  PendingPoolSize); [done|]. lia.
    + pose proof (head_indexed _ _ Hc Hpick) as Hv.
      destruct (removeTx_sizes v v p p0 Hc Hv Hrm) as (Hs1 & Hs2 & Hs3).
      unfold len in *.
      rewrite map_size_insert_None.
      2:{ rewrite (removeTx_Transactions _ _ _ Hrm).
          rewrite lookup_delete_ne; [done|congruence]. }
      lia.
  - apply txRemover_cases in Hserve
      as [[_ ->]|(tx & tx2 & p' & Htx & Hh & _ & Hrm & ->)]; [done|].
    simpl.
    assert (Htx2 : Transactions p !! Hash tx2 = Some tx).
    { by rewrite Hh, (cons_keys p Hc _ _ Htx). }
    destruct (removeTx_sizes tx2 tx p p' Hc Htx2 Hrm) as (Hs1 & Hs2 & Hs3).
    lia.
Qed.

Lemma pool_never_exceeds_capacity_witness :
  (0 ≤ 2 ∧ 2 + 1 < 2 ^ 64 ∧ reachable 2 evictedPool)
  ∧ Z.of_nat (size (Transactions evictedPool)) ≤ 2
  ∧ Count evictedPool = Z.of_nat (size (Transactions evictedPool)).
Proof.
  assert (H0 : 0 ≤ 2) by lia.
  assert (H1 : 2 + 1 < 2 ^ 64) by (vm_compute; reflexivity).
  assert (H2 : reachable 2 evictedPool).
  { apply (reachable_exec 2 [AddRequest 14 (sampleTx 3 8 0 120)] fullPool);
      [exact fullPool_reachable|]. vm_compute. reflexivity. }
  split; [done|].
  destruct (pool_never_exceeds_capacity 2 evictedPool H0 H1 H2) as (Hb & _ & _ & Hc).
  by split.
Defined.

(** ** What the pool holds *)

(** X6. Invariant 5. Every transaction in a pool the actor can be in sits
    under its own hash and is marked ["pending"]: the marks ["dropped"] and
    ["confirmed"] are only put on a transaction that leaves with the same
    request. *)
Theorem pool_holds_pending_only (PendingPoolSize : Z) (p : PendingPool)
    (h : N) (tx : MemPoolTx) :
  reachable PendingPoolSize p → Transactions p !! h = Some tx →
  Hash tx = h ∧ Pool tx = "pending".
Proof.
  intros Hreach Htx. split.
  { apply reachable_consistent in Hreach. by apply (cons_keys p Hreach). }
  revert h tx Htx.
  induction Hreach as [|p req o Hreach IH Hserve]; intros h tx Htx;
    [simpl in Htx; by rewrite lookup_empty in Htx|].
  destruct req as [now new|now txStat]; simpl in Hserve.
  - apply txAdder_cases in Hserve
      as [(_ & -> & _)|(_ & _ & _ & _ & _ & Hpool)]; [eauto|].
    destruct Hpool as [[_ Hp]|(v & p0 & _ & _ & Hrm & Hp)];
      rewrite Hp, addTx_Transactions in Htx; simpl in Htx;
      apply lookup_insert_Some in Htx as [[_ <-]|[_ Htx]]; try done; [eauto|].
    rewrite (removeTx_Transactions _ _ _ Hrm) in Htx.
    apply lookup_delete_Some in Htx as [_ Htx]. eauto.
  - apply txRemover_cases in Hserve
      as [[_ ->]|(tx0 & tx2 & p' & _ & _ & _ & Hrm & ->)]; [eauto|].
    simpl in Htx. rewrite (removeTx_Transactions _ _ _ Hrm) in Htx.
    apply lookup_delete_Some in Htx as [_ Htx]. eauto.
Qed.

Lemma pool_holds_pending_only_witness :
  (reachable 2 fullPool
   ∧ Transactions fullPool !! 2%N = Some (stampPending 11 (sampleTx 2 7 1 90)))
  ∧ Pool (stampPending 11 (sampleTx 2 7 1 90)) = "pending".
Proof.
  assert (H : Transactions fullPool !! 2%N
              = Some (stampPending 11 (sampleTx 2 7 1 90)))
    by (vm_compute; reflexivity).
  split; [split; [exact fullPool_reachable|exact H]|].
  exact (proj2 (pool_holds_pending_only 2 _ _ _ fullPool_reachable H)).
Defined.

(** ** Adding after a probe *)

(** X7. [VerifiedAdd] accepts only after a probe that succeeded and found
    the nonce of the transaction not below the count of the sender, for a
    hash the pool has not seen; whenever it answers false, on a failed
    probe too, the pool and the transaction are as before and nothing is
    published. *)
Theorem VerifiedAdd_needs_a_live_nonce (PendingPoolSize : Z) (rpc : Result Z)
    (now : Z) (tx : MemPoolTx) (p : PendingPool) (o : Outcome) :
  VerifiedAdd PendingPoolSize rpc now tx p = Some o →
  (reply o = true →
     ∃ count, rpc = Ok count ∧ count ≤ Nonce tx
              ∧ Transactions p !! Hash tx = None
              ∧ DroppedTxs p !! Hash tx = None)
  ∧ (reply o = false → o = mkOutcome false (Some tx) p []).
Proof.
  unfold VerifiedAdd, IsNonceExhausted.
  destruct rpc as [count|e]; [|intros [= <-]; by split].
  destruct (Z.ltb_spec (Nonce tx) count) as [Hlt|Hge];
    [intros [= <-]; by split|].
  intros Ho. apply txAdder_cases in Ho
    as [(Hr & -> & _)|(Hr & Hin & Hdead & _)].
  - by split.
  - split; [|congruence]. intros _. by exists count.
Qed.

Lemma VerifiedAdd_needs_a_live_nonce_witness :
  VerifiedAdd 2 (Ok 5) 30 (sampleTx 9 9 5 50) onePool
  = Some (mkOutcome true (Some (stampPending 30 (sampleTx 9 9 5 50)))
            (addTx (stampPending 30 (sampleTx 9 9 5 50)) onePool)
            [PublishAdded (stampPending 30 (sampleTx 9 9 5 50))])
  ∧ Transactions onePool !! 9%N = None
  ∧ DroppedTxs onePool !! 9%N = None.
Proof.
  assert (H : VerifiedAdd 2 (Ok 5) 30 (sampleTx 9 9 5 50) onePool
    = Some (mkOutcome true (Some (stampPending 30 (sampleTx 9 9 5 50)))
              (addTx (stampPending 30 (sampleTx 9 9 5 50)) onePool)
              [PublishAdded (stampPending 30 (sampleTx 9 9 5 50))]))
    by (vm_compute; reflexivity).
  split; [exact H|].
  destruct (proj1 (VerifiedAdd_needs_a_live_nonce 2 _ 30 _ _ _ H) eq_refl)
    as (count & _ & _ & Hin & Hdead).
  split; [exact Hin|exact Hdead].
Defined.

(** ** The pruner's candidates *)

Lemma prunable_spec target tx :
  prunable target tx ↔ Hash tx ≠ Hash target ∧ Nonce tx ≤ Nonce target.
Proof.
  unfold prunable. rewrite andb_True, negb_True.
  rewrite Is_true_true, N.eqb_eq, Is_true_true, Z.leb_le. done.
Qed.

Lemma TxsFromA_of_member p tx :
  consistent p → Transactions p !! Hash tx = Some tx →
  ∃ l, TxsFromAddress p !! From tx = Some l
       ∧ TxsFromA (From tx) p = Some (get l).
Proof.
  intros Hc Htx. destruct (cons_alloc p Hc _ _ Htx) as [l Hl].
  exists l. split; [done|]. unfold TxsFromA, len. rewrite Hl.
  assert (Hin : tx ∈ get l) by (by apply (cons_from p Hc _ _ Hl)).
  destruct (get l); [by apply elem_of_nil in Hin|done].
Qed.

Lemma Prunables_of_member answered p target :
  (∀ l, answered l ≡ₚ l) → consistent p →
  Transactions p !! Hash target = Some target →
  ∃ rest,
    Prunables answered target p = Some (target :: rest)
    ∧ NoDup (Hash <$> target :: rest)
    ∧ ∀ tx, tx ∈ rest
            ↔ Transactions p !! Hash tx = Some tx ∧ From tx = From target
              ∧ Hash tx ≠ Hash target ∧ Nonce tx ≤ Nonce target.
Proof.
  intros Hperm Hc Htarget.
  destruct (TxsFromA_of_member p target Hc Htarget) as (l & Hl & Hfrom).
  destruct (cons_from p Hc _ _ Hl) as [Hnd Hmem].
  eexists. unfold Prunables. rewrite Hfrom. split; [done|]. split.
  - rewrite fmap_cons. apply NoDup_cons. split.
    + intros Hin. apply list_elem_of_fmap in Hin as (x & Hx & Hin).
      apply list_elem_of_filter in Hin as [Hp _].
      apply prunable_spec in Hp as [Hne _]. congruence.
    + eapply sublist_NoDup; [|apply fmap_sublist, sublist_filter].
      by rewrite (Hperm (get l)).
  - intros tx. rewrite list_elem_of_filter, prunable_spec, (Hperm (get l)), Hmem.
    naive_solver.
Qed.

(** X8. For a transaction of a pool the actor can be in, and workers that
    answer in any order, [Prunables] returns the transaction first and
    after it, each once, exactly the other transactions of the pool with
    the same sender and a nonce not above its own. For a sender without
    transactions in the pool it returns nil, the target left out too. *)
Theorem Prunables_lists_the_lower_nonces (PendingPoolSize : Z)
    (answered : list MemPoolTx → list MemPoolTx) (p : PendingPool)
    (target : MemPoolTx) :
  (∀ l, answered l ≡ₚ l) → reachable PendingPoolSize p →
  (Transactions p !! Hash target = Some target →
     ∃ rest,
       Prunables answered target p = Some (target :: rest)
       ∧ NoDup (Hash <$> target :: rest)
       ∧ ∀ tx, tx ∈ rest
               ↔ Transactions p !! Hash tx = Some tx ∧ From tx = From target
                 ∧ Hash tx ≠ Hash target ∧ Nonce tx ≤ Nonce target)
  ∧ (txsFrom p (From target) = [] → Prunables answered target p = None).
Proof.
  intros Hperm Hreach. apply reachable_consistent in Hreach. split.
  - by apply Prunables_of_member.
  - unfold txsFrom, Prunables, TxsFromA, len.
    destruct (TxsFromAddress p !! From target) as [l|]; [|done].
    by intros ->.
Qed.

Lemma Prunables_lists_the_lower_nonces_witness :
  ((∀ l : list MemPoolTx, reverse l ≡ₚ l) ∧ reachable 2 fullPool
   ∧ Transactions fullPool !! Hash (stampPending 11 (sampleTx 2 7 1 90))
     = Some (stampPending 11 (sampleTx 2 7 1 90)))
  ∧ ∃ rest,
      Prunables reverse (stampPending 11 (sampleTx 2 7 1 90)) fullPool
      = Some (stampPending 11 (sampleTx 2 7 1 90) :: rest)
      ∧ NoDup (Hash <$> stampPending 11 (sampleTx 2 7 1 90) :: rest).
Proof.
  assert (H1 : ∀ l : list MemPoolTx, reverse l ≡ₚ l) by apply reverse_Permutation.
  assert (H2 : Transactions fullPool !! Hash (stampPending 11 (sampleTx 2 7 1 90))
               = Some (stampPending 11 (sampleTx 2 7 1 90)))
    by (vm_compute; reflexivity).
  split; [split_and!; [exact H1|exact fullPool_reachable|exact H2]|].
  destruct (Prunables_lists_the_lower_nonces 2 reverse fullPool
              (stampPending 11 (sampleTx 2 7 1 90)) H1 fullPool_reachable)
    as [Hmember _].
  destruct (Hmember H2) as (rest & Hp & Hnd & _). by exists rest.
Defined.

Section Gathering.

Variable answered : list MemPoolTx → list MemPoolTx.
Variable p : PendingPool.
Hypothesis Hanswered : ∀ l, answered l ≡ₚ l.
Hypothesis Hcons : consistent p.

Lemma gather_step acc already tx :
  (∀ x, x ∈ acc → Transactions p !! Hash x = Some x) →
  covered p acc already →
  Transactions p !! Hash tx = Some tx →
  (∀ x, x ∈ acc ++ default [] (Prunables answered tx p) →
     Transactions p !! Hash x = Some x)
  ∧ covered p (acc ++ default [] (Prunables answered tx p))
      (<[From tx := Nonce tx]> already)
  ∧ tx ∈ acc ++ default [] (Prunables answered tx p).
Proof.
  intros Hsound Hcov Htx.
  destruct (Prunables_of_member answered p tx Hanswered Hcons Htx)
    as (rest & -> & _ & Hrest).
  simpl. split_and!.
  - intros x. rewrite elem_of_app, elem_of_cons.
    intros [Hx|[->|Hx]]; [eauto|done|]. by apply Hrest in Hx as [? _].
  - intros a w Hw x Hx Ha Hn. rewrite elem_of_app, elem_of_cons.
    apply lookup_insert_Some in Hw as [[<- <-]|[Hne Hw]].
    + right. destruct (decide (Hash x = Hash tx)) as [Heq|Hne].
      * left. rewrite Heq in Hx. congruence.
      * right. by apply Hrest.
    + left. by eapply Hcov.
  - rewrite elem_of_app, elem_of_cons. right. by left.
Qed.

Lemma gather_sound_complete caught :
  ∀ acc already,
    (∀ x, x ∈ acc → Transactions p !! Hash x = Some x) →
    covered p acc already →
    (∀ x, x ∈ acc → x ∈ (gatherPrunables answered caught p acc already).1)
    ∧ (∀ x, x ∈ (gatherPrunables answered caught p acc already).1 →
         Transactions p !! Hash x = Some x)
    ∧ (∀ h tx, h ∈ caught → Transactions p !! h = Some tx →
         tx ∈ (gatherPrunables answered caught p acc already).1).
Proof.
  induction caught as [|h rest IH]; intros acc already Hsound Hcov;
    cbn [gatherPrunables].
  - split_and!; [done|done|]. intros h tx Hh. by apply elem_of_nil in Hh.
  - unfold Get. destruct (Transactions p !! h) as [tx|] eqn:Htx.
    + pose proof (cons_keys p Hcons _ _ Htx) as Hkey.
      assert (Hmem : Transactions p !! Hash tx = Some tx) by (by rewrite Hkey).
      destruct (gather_step acc already tx Hsound Hcov Hmem) as (Hs' & Hc' & Hin').
      destruct (IH _ _ Hs' Hc') as (Hkeep & Hsnd & Hall).
      assert (Hadd :
        (∀ x, x ∈ acc →
           x ∈ (gatherPrunables answered rest p
                  (acc ++ default [] (Prunables answered tx p))
                  (<[From tx := Nonce tx]> already)).1)
        ∧ (∀ h' tx', h' ∈ h :: rest → Transactions p !! h' = Some tx' →
             tx' ∈ (gatherPrunables answered rest p
                      (acc ++ default [] (Prunables answered tx p))
                      (<[From tx := Nonce tx]> already)).1)).
      { split.
        - intros x Hx. apply Hkeep. apply elem_of_app. by left.
        - intros h' tx' Hh' Htx'. apply elem_of_cons in Hh' as [->|Hh'].
          + rewrite Htx in Htx'. injection Htx' as <-. by apply Hkeep.
          + by eapply Hall. }
      destruct (already !! From tx) as [w|] eqn:Hw; [|by split_and!; try apply Hadd].
      destruct (Z.gtb_spec w (Nonce tx)) as [Hskip|_];
        [|by split_and!; try apply Hadd].
      destruct (IH _ _ Hsound Hcov) as (Hkeep0 & Hsnd0 & Hall0).
      split_and!; [done|done|].
      intros h' tx' Hh' Htx'. apply elem_of_cons in Hh' as [->|Hh'].
      * rewrite Htx in Htx'. injection Htx' as <-. apply Hkeep0.
        apply (Hcov _ _ Hw); [done|done|lia].
      * by eapply Hall0.
    + destruct (IH _ _ Hsound Hcov) as (Hkeep0 & Hsnd0 & Hall0).
      split_and!; [done|done|].
      intros h' tx' Hh' Htx'. apply elem_of_cons in Hh' as [->|Hh'].
      * congruence.
      * by eapply Hall0.
Qed.

End Gathering.

(** X9. The nonce cache of [Prune] loses nothing: for a batch of caught
    hashes, a pool the actor can be in and workers that answer in any
    order, every transaction gathered for probing is one of the pool, and
    every caught hash that is in the pool has its transaction among them,
    also when the loop skipped it for a higher nonce of its sender. *)
Theorem Prune_gathers_every_caught_transaction (PendingPoolSize : Z)
    (answered : list MemPoolTx → list MemPoolTx) (p : PendingPool)
    (caught : list N) :
  (∀ l, answered l ≡ₚ l) → reachable PendingPoolSize p →
  (∀ x, x ∈ (gatherPrunables answered caught p [] ∅).1 →
     Transactions p !! Hash x = Some x)
  ∧ (∀ h tx, h ∈ caught → Transactions p !! h = Some tx →
       tx ∈ (gatherPrunables answered caught p [] ∅).1).
Proof.
  intros Hperm Hreach. apply reachable_consistent in Hreach.
  destruct (gather_sound_complete answered p Hperm Hreach caught [] ∅)
    as (_ & Hsound & Hall).
  - intros x Hx. by apply elem_of_nil in Hx.
  - intros a w Hw. by rewrite lookup_empty in Hw.
  - by split.
Qed.

Lemma Prune_gathers_every_caught_transaction_witness :
  ((∀ l : list MemPoolTx, reverse l ≡ₚ l) ∧ reachable 2 fullPool
   ∧ 1%N ∈ [2%N; 5%N; 1%N]
   ∧ Transactions fullPool !! 1%N = Some (stampPending 10 (sampleTx 1 7 0 100)))
  ∧ stampPending 10 (sampleTx 1 7 0 100)
    ∈ (gatherPrunables reverse [2%N; 5%N; 1%N] fullPool [] ∅).1.
Proof.
  assert (H1 : ∀ l : list MemPoolTx, reverse l ≡ₚ l) by apply reverse_Permutation.
  assert (H2 : 1%N ∈ [2%N; 5%N; 1%N])
    by (apply (bool_decide_unpack _); vm_compute; exact I).
  assert (H3 : Transactions fullPool !! 1%N
               = Some (stampPending 10 (sampleTx 1 7 0 100)))
    by (vm_compute; reflexivity).
  split; [split_and!; [exact H1|exact fullPool_reachable|exact H2|exact H3]|].
  destruct (Prune_gathers_every_caught_transaction 2 reverse fullPool
              [2%N; 5%N; 1%N] H1 fullPool_reachable) as [_ Hall].
  exact (Hall _ _ H2 H3).
Defined.

(** ** Configuration *)




Lemma parseDigits_decimal8 s n m :
  0 ≤ n ≤ 255 →
  config.parseDigits 10 (config.maxUint64 / 10 + 1) (2 ^ 8 - 1) s n = (m, None)
  ↔ decimal s n = Some m ∧ m ≤ 255.
Proof.
  assert (Hcut : config.maxUint64 / 10 + 1 = 1844674407370955162) by reflexivity.
  assert (Hmax : 2 ^ 8 - 1 = 255) by reflexivity.
  assert (Hpow : 2 ^ 64 = 18446744073709551616) by reflexivity.
  rewrite Hcut, Hmax.
  revert n. induction s as [|a rest IH]; intros n Hn.
  - simpl. split; [intros [= <-]; split; [done|lia]|by intros [[= <-] _]].
  - cbn [config.parseDigits decimal].
    set (c := Z.of_N (Ascii.N_of_ascii a)).
    destruct ((48 <=? c) && (c <=? 57)) eqn:E.
    + apply andb_true_iff in E as [E1 E2]. apply Z.leb_le in E1, E2.
      destruct (Z.geb_spec (c - 48) 10) as [|_]; [lia|].
      destruct (Z.geb_spec n 1844674407370955162) as [|_]; [lia|].
      unfold uint64. rewrite Hpow.
      rewrite (Z.mod_small (n * 10)) by lia.
      rewrite (Z.mod_small (n * 10 + (c - 48))) by lia.
      destruct (Z.ltb_spec (n * 10 + (c - 48)) (n * 10)) as [|_]; [lia|].
      destruct (Z.gtb_spec (n * 10 + (c - 48)) 255) as [Hbig|Hfit]; simpl.
      * split; [done|]. intros [Hd Hm]. apply decimal_ge in Hd; lia.
      * apply IH. lia.
    + split; [|by intros [? _]].
      destruct ((97 <=? config.lower c) && (config.lower c <=? 122)) eqn:E'; [|done].
      apply andb_true_iff in E' as [E1 E2]. apply Z.leb_le in E1, E2.
      destruct (Z.geb_spec (config.lower c - 97 + 10) 10) as [_|]; [done|lia].
Qed.

(** X11. [GetRedisDBIndex] answers a database index of eight bits: the
    value of the option when it is a non-empty decimal numeral up to 255,
    and 1 in every other case, for a numeral above 255 too. *)
Theorem RedisDB_index_fits_a_byte (cfg : gmap string string) :
  0 ≤ GetRedisDBIndex cfg ≤ 255
  ∧ (cfg !! "RedisDB" = None → GetRedisDBIndex cfg = 1)
  ∧ (∀ s n, cfg !! "RedisDB" = Some s →
       s ≠ "" → decimal s 0 = Some n → n ≤ 255 → GetRedisDBIndex cfg = n)
  ∧ (∀ s, cfg !! "RedisDB" = Some s →
       (∀ n, decimal s 0 = Some n → 255 < n) → GetRedisDBIndex cfg = 1).
Proof.
  assert (Hspec : ∀ s n, ParseUint8 s = (n, None)
                         ↔ s ≠ "" ∧ decimal s 0 = Some n ∧ n ≤ 255).
  { intros s n. unfold ParseUint8. destruct s as [|a rest].
    - split; [done|by intros [? _]].
    - rewrite parseDigits_decimal8 by lia. naive_solver. }
  assert (Hnonneg : ∀ s n, decimal s 0 = Some n → 0 ≤ n).
  { intros s n Hd. apply decimal_ge in Hd; lia. }
  assert (Hbyte : ∀ s, 0 ≤ (match ParseUint8 s with
                             | (_, Some _) => 1
                             | (_db, None) => uint8 _db
                             end) ≤ 255).
  { intros s. destruct (ParseUint8 s) as [v [e|]] eqn:Hp; [lia|].
    apply Hspec in Hp as (_ & Hd & Hle). apply Hnonneg in Hd.
    unfold uint8. rewrite Z.mod_small; [lia|]. change (2 ^ 8) with 256. lia. }
  unfold GetRedisDBIndex, config.Get. split; [apply Hbyte|]. split_and!.
  - by intros ->.
  - intros s n -> Hs Hd Hle. simpl.
    rewrite (proj2 (Hspec s n)) by done.
    apply Z.mod_small. apply Hnonneg in Hd. change (2 ^ 8) with 256. lia.
  - intros s -> Hbig. simpl.
    destruct (ParseUint8 s) as [v [e|]] eqn:Hp; [done|].
    apply Hspec in Hp as (_ & Hd & Hle). apply Hbig in Hd. lia.
Qed.

Lemma RedisDB_index_fits_a_byte_witness :
  (({["RedisDB" := "256"]} : gmap string string) !! "RedisDB" = Some "256"
   ∧ ∀ n, decimal "256" 0 = Some n → 255 < n)
  ∧ GetRedisDBIndex {["RedisDB" := "256"]} = 1.
Proof.
  assert (H1 : ({["RedisDB" := "256"]} : gmap string string) !! "RedisDB"
               = Some "256") by (vm_compute; reflexivity).
  assert (H2 : ∀ n, decimal "256" 0 = Some n → 255 < n).
  { intros n Hn. vm_compute in Hn. injection Hn as <-. lia. }
  split; [done|].
  destruct (RedisDB_index_fits_a_byte {["RedisDB" := "256"]}) as (_ & _ & _ & Hbig).
  exact (Hbig _ H1 H2).
Defined.

(** ** Frames, written and read *)

Lemma byte_bit v k n :
  0 ≤ k → 0 ≤ n →
  Z.testbit (Z.shiftl (Z.land (Z.shiftr v k) (Z.ones 8)) k) n
  = Z.testbit v n && (k <=? n) && (n <? k + 8).
Proof.
  intros Hk Hn. destruct (Z.lt_ge_cases n k) as [Hlow|Hhigh].
  - rewrite Z.shiftl_spec_low by done.
    destruct (Z.leb_spec k n); [lia|]. by rewrite andb_false_r.
  - rewrite Z.shiftl_spec, Z.land_spec, Z.shiftr_spec by lia.
    rewrite Z.testbit_ones_nonneg by lia.
    replace (n - k + k) with n by lia.
    destruct (Z.leb_spec k n); [|lia]. rewrite andb_true_r. f_equal.
    destruct (Z.ltb_spec (n - k) 8), (Z.ltb_spec n (k + 8)); (done || lia).
Qed.

Lemma Uint32_PutUint32 v : 0 ≤ v < 2 ^ 32 → Uint32 (PutUint32 v) = v.
Proof.
  intros Hv. unfold Uint32, PutUint32.
  change 255 with (Z.ones 8).
  rewrite <- (Z.shiftl_0_r (Z.land v (Z.ones 8))).
  rewrite <- (Z.shiftr_0_r v) at 1.
  apply Z.bits_inj'. intros n Hn.
  rewrite !Z.lor_spec, !byte_bit by lia.
  destruct (Z.lt_ge_cases n 32) as [H32|H32].
  - destruct (Z.testbit v n); [|done]. simpl.
    destruct (Z.leb_spec 0 n), (Z.ltb_spec n (0 + 8)), (Z.leb_spec 8 n),
      (Z.ltb_spec n (8 + 8)), (Z.leb_spec 16 n), (Z.ltb_spec n (16 + 8)),
      (Z.leb_spec 24 n), (Z.ltb_spec n (24 + 8)); simpl; (done || lia).
  - rewrite <- (Z.mod_small v (2 ^ 32)) by lia.
    rewrite Z.mod_pow2_bits_high by lia. done.
Qed.

Lemma ReadFull_app (a rest : list Z) :
  ReadFull (length a) (a ++ rest) = inl (a, rest).
Proof.
  unfold ReadFull. destruct a as [|x a]; [done|].
  cbn [length Nat.eqb].
  destruct (Nat.leb_spec (S (length a)) (length ((x :: a) ++ rest))) as [_|Hlt].
  - change (S (length a)) with (length (x :: a)).
    by rewrite take_app_length, drop_app_length.
  - rewrite length_app in Hlt. simpl in Hlt. lia.
Qed.

Section ReaderProperties.

Variable UnmarshalPubSubMessage : list Z → option MemPoolTx.

Lemma ReadFrom_turn_frame peerId data rest :
  Z.of_nat (length data) < 2 ^ 32 →
  ReadFrom_turn UnmarshalPubSubMessage false peerId (frame data ++ rest)
  = Looping rest (ReadFrom_chunk UnmarshalPubSubMessage peerId data).
Proof.
  intros Hlen. unfold ReadFrom_turn, frame. rewrite <- app_assoc.
  change 4%nat with (length (PutUint32 (uint32 (Z.of_nat (length data))))).
  rewrite ReadFull_app. unfold uint32.
  rewrite Z.mod_small by lia. rewrite Uint32_PutUint32 by lia.
  by rewrite Nat2Z.id, ReadFull_app.
Qed.

Lemma ReadFrom_turn_live peerId input :
  ReadFrom_turn UnmarshalPubSubMessage false peerId input ≠ Returned.
Proof.
  unfold ReadFrom_turn.
  destruct (ReadFull 4 input) as [[buf input1]|[e input1]]; [|done].
  by destruct (ReadFull (Z.to_nat (Uint32 buf)) input1) as [[? ?]|[? ?]].
Qed.

Lemma ReadFrom_live n peerId input :
  (ReadFrom UnmarshalPubSubMessage (replicate n false) peerId input).2 = false.
Proof.
  revert input. induction n as [|n IH]; intros input; [done|].
  cbn [replicate ReadFrom].
  pose proof (ReadFrom_turn_live peerId input) as Hlive.
  destruct (ReadFrom_turn UnmarshalPubSubMessage false peerId input)
    as [|input' handled]; [done|].
  specialize (IH input').
  by destruct (ReadFrom UnmarshalPubSubMessage (replicate n false) peerId input')
    as [[txs rest] returned].
Qed.

Lemma ReadFrom_closed n peerId :
  ReadFrom UnmarshalPubSubMessage (replicate n false) peerId [] = ([], [], false).
Proof. induction n as [|n IH]; [done|]. cbn [replicate ReadFrom]. simpl. by rewrite IH. Qed.

Lemma ReadFrom_frames peerId payloads k :
  Forall (λ data, Z.of_nat (length data) < 2 ^ 32) payloads →
  ReadFrom UnmarshalPubSubMessage (replicate (length payloads + k) false) peerId
    (concat (frame <$> payloads))
  = (omap (ReadFrom_chunk UnmarshalPubSubMessage peerId) payloads, [], false).
Proof.
  induction 1 as [|data payloads Hlen _ IH].
  - simpl. apply ReadFrom_closed.
  - rewrite fmap_cons. cbn [concat length Nat.add replicate ReadFrom].
    rewrite ReadFrom_turn_frame by done. rewrite IH. simpl.
    by destruct (ReadFrom_chunk UnmarshalPubSubMessage peerId data).
Qed.

Lemma process_healthy peerId data s t :
  UnmarshalPubSubMessage data = Some t → ReceivedFrom t ≠ peerId →
  faults s = [] →
  process UnmarshalPubSubMessage peerId data s
  = (None, mkStream ((calls s ++ [Write (frame data)]) ++ [Flush]) []).
Proof.
  intros Hdec Hne Hok. unfold process. rewrite Hdec.
  destruct (String.eqb_spec (ReceivedFrom t) peerId) as [|_]; [done|].
  assert (E : Nat.min (length (frame data) - 4) (length data) = length data).
  { unfold frame, PutUint32. rewrite length_app. simpl. lia. }
  rewrite E, Nat.eqb_refl. unfold rwCall. simpl. by rewrite Hok.
Qed.

Lemma drain_written peerId data late s chunk :
  chunk ∈ written (drain UnmarshalPubSubMessage peerId (Some data) late s).2 →
  chunk ∈ written s ∨ chunk = frame data.
Proof.
  revert s. induction late as [|isLate later IH]; intros s; cbn [drain];
    [by left|].
  pose proof (process_written UnmarshalPubSubMessage peerId data s) as Hp.
  assert (Hone : ∀ c, c ∈ written (process UnmarshalPubSubMessage peerId data s).2 →
                      c ∈ written s ∨ c = frame data).
  { intros c. rewrite Hp, elem_of_app. intros [?|Hc]; [by left|right].
    destruct (UnmarshalPubSubMessage data) as [t|]; [|by apply elem_of_nil in Hc].
    destruct (String.eqb (ReceivedFrom t) peerId); [by apply elem_of_nil in Hc|].
    by apply list_elem_of_singleton in Hc. }
  destruct (process UnmarshalPubSubMessage peerId data s) as [[e|] s'];
    simpl in *; [apply Hone|].
  destruct isLate; simpl; [apply Hone|].
  intros Hc. apply IH in Hc as [Hc|Hc]; [by apply Hone|by right].
Qed.

End ReaderProperties.

(** X12. What the writer frames the reader reads back: from a stream that
    carries the frames of payloads shorter than 2^32 bytes and is then
    closed, the reader hands to the pool, in order, the transaction of every
    payload that decodes, marked as received from the peer, and uses up the
    stream. After the end of the stream, and on any stream, it does not
    return as long as the context is not done: a read error only leaves the
    [select], so [healthChan] stays open. *)
Theorem reader_reads_every_frame
    (UnmarshalPubSubMessage : list Z → option MemPoolTx) (peerId : string)
    (payloads : list (list Z)) (k : nat) :
  Forall (λ data, Z.of_nat (length data) < 2 ^ 32) payloads →
  ReadFrom UnmarshalPubSubMessage (replicate (length payloads + k) false) peerId
    (concat (frame <$> payloads))
  = (omap (ReadFrom_chunk UnmarshalPubSubMessage peerId) payloads, [], false)
  ∧ (∀ n input,
       (ReadFrom UnmarshalPubSubMessage (replicate n false) peerId input).2
       = false)
  ∧ (∀ data, Z.of_nat (length data) < 2 ^ 32 →
       Uint32 (take 4 (frame data)) = Z.of_nat (length data)
       ∧ drop 4 (frame data) = data).
Proof.
  intros Hlen. split_and!.
  - by apply ReadFrom_frames.
  - intros n input. apply ReadFrom_live.
  - intros data Hd. split; [|done]. unfold frame. simpl. unfold uint32.
    rewrite Z.mod_small by lia. apply Uint32_PutUint32. lia.
Qed.

Lemma reader_reads_every_frame_witness :
  Forall (λ data, Z.of_nat (length data) < 2 ^ 32) [[221]; [7; 7]]
  ∧ ReadFrom sampleDecode (replicate (2 + 3) false) "peerB"
      (concat (frame <$> [[221]; [7; 7]]))
    = ([setReceivedFrom "peerB" (setReceivedFrom "peerA" (sampleTx 1 7 0 10))],
       [], false).
Proof.
  assert (H : Forall (λ data, Z.of_nat (length data) < 2 ^ 32) [[221]; [7; 7]]).
  { repeat constructor. }
  split; [exact H|].
  exact (proj1 (reader_reads_every_frame sampleDecode "peerB" _ 3 H)).
Defined.

(** X13. The drain of the queue in [WriteTo] never takes a second message:
    every chunk it writes is the frame of the one message it took. On a
    stream without faults, for a message of another peer, it writes that
    frame once for every reading of the clock until 256 ms have passed. *)
Theorem drain_repeats_one_message
    (UnmarshalPubSubMessage : list Z → option MemPoolTx) (peerId : string)
    (data : list Z) (t : MemPoolTx) :
  UnmarshalPubSubMessage data = Some t → ReceivedFrom t ≠ peerId →
  (∀ late s chunk,
     chunk ∈ written (drain UnmarshalPubSubMessage peerId (Some data) late s).2 →
     chunk ∈ written s ∨ chunk = frame data)
  ∧ (∀ n s, faults s = [] →
       ∃ s', drain UnmarshalPubSubMessage peerId (Some data)
               (replicate n false ++ [true]) s = (Drained, s')
             ∧ written s' = written s ++ replicate (S n) (frame data)).
Proof.
  intros Hdec Hne. split; [intros late s chunk; apply drain_written|].
  induction n as [|n IH]; intros s Hok; cbn [replicate app drain];
    rewrite (process_healthy _ _ _ _ _ Hdec Hne Hok).
  - eexists. split; [done|]. unfold written. simpl.
    rewrite !omap_app. simpl. by rewrite app_nil_r.
  - destruct (IH (mkStream ((calls s ++ [Write (frame data)]) ++ [Flush]) []))
      as (s' & Hs' & Hw); [done|].
    exists s'. split; [done|]. rewrite Hw. unfold written at 1. simpl.
    rewrite !omap_app. simpl. rewrite app_nil_r, <- app_assoc. done.
Qed.

Lemma drain_repeats_one_message_witness :
  (sampleDecode [221] = Some (setReceivedFrom "peerA" (sampleTx 1 7 0 10))
   ∧ ReceivedFrom (setReceivedFrom "peerA" (sampleTx 1 7 0 10)) ≠ "peerB"
   ∧ faults (mkStream [] []) = [])
  ∧ ∃ s', drain sampleDecode "peerB" (Some [221]) [false; false; true]
            (mkStream [] []) = (Drained, s')
          ∧ written s' = [frame [221]; frame [221]; frame [221]].
Proof.
  assert (H1 : sampleDecode [221] = Some (setReceivedFrom "peerA" (sampleTx 1 7 0 10)))
    by reflexivity.
  assert (H2 : ReceivedFrom (setReceivedFrom "peerA" (sampleTx 1 7 0 10)) ≠ "peerB")
    by discriminate.
  split; [done|].
  destruct (drain_repeats_one_message sampleDecode "peerB" [221] _ H1 H2)
    as [_ Hrepeat].
  exact (Hrepeat 2%nat (mkStream [] []) eq_refl).
Defined.

(** ** The pool over a map alone *)

Lemma probeStatus_confirmedBy rpc tx :
  pending.Status (pending.probeStatus (rpc tx) tx) = confirmedBy rpc tx
  ∧ pending.StatusHash (pending.probeStatus (rpc tx) tx) = Hash tx.
Proof.
  unfold pending.probeStatus, confirmedBy, IsNonceExhausted.
  destruct (rpc tx) as [count|e]; [|done]. by destruct (Nonce tx <? count).
Qed.

Lemma confirmedBuffer_filter rpc (txs : list MemPoolTx) :
  pending.StatusHash
    <$> filter (λ v, pending.Status v = true)
          ((λ tx, pending.probeStatus (rpc tx) tx) <$> txs)
  = Hash <$> filter (λ tx, confirmedBy rpc tx = true) txs.
Proof.
  induction txs as [|tx txs IH]; [done|].
  rewrite fmap_cons, !filter_cons.
  destruct (probeStatus_confirmedBy rpc tx) as [Hs Hh]. rewrite Hs.
  destruct (decide (confirmedBy rpc tx = true)); [|done].
  by rewrite !fmap_cons, Hh, IH.
Qed.

Lemma keyed_values (m : gmap N MemPoolTx) :
  (∀ h tx, m !! h = Some tx → Hash tx = h) →
  Hash <$> (map_to_list m).*2 = (map_to_list m).*1.
Proof.
  intros Hkeyed. rewrite <- list_fmap_compose. apply list_fmap_ext.
  intros i [h tx] Hi. simpl. apply Hkeyed.
  apply elem_of_map_to_list. by eapply list_elem_of_lookup_2.
Qed.

Lemma removeEach_spec buffer :
  ∀ p count,
    NoDup buffer →
    (∀ h, h ∈ buffer → is_Some (pending.Transactions p !! h)) →
    0 ≤ count → count + Z.of_nat (length buffer) < 2 ^ 64 →
    ∃ p' events,
      pending.removeEach buffer p count
      = (count + Z.of_nat (length buffer), p', events)
      ∧ (∀ h, pending.Transactions p' !! h
              = if decide (h ∈ buffer) then None else pending.Transactions p !! h)
      ∧ (size (pending.Transactions p') + length buffer)%nat
        = size (pending.Transactions p)
      ∧ (∀ e, e ∈ events →
           ∃ h tx, e = PublishRemoved tx ∧ h ∈ buffer
                   ∧ pending.Transactions p !! h = Some tx)
      ∧ length events = length buffer.
Proof.
  induction buffer as [|v rest IH]; intros p count Hnd Hin Hc Hfit.
  - exists p, []. simpl. split_and!; try done.
    + f_equal. f_equal. lia.
    + intros e He. by apply elem_of_nil in He.
  - apply NoDup_cons in Hnd as [Hv Hnd].
    destruct (Hin v) as [tx Htx]; [by left|].
    cbn [pending.removeEach length]. unfold pending.Remove. rewrite Htx.
    assert (Hone : uint64 (count + 1) = count + 1).
    { unfold uint64. apply Z.mod_small. simpl in Hfit. lia. }
    rewrite Hone.
    destruct (IH (pending.mkPool (delete v (pending.Transactions p))) (count + 1))
      as (p' & events & Heq & Hlook & Hsize & Hev & Hlen); [done| |lia| |].
    { intros h Hh. simpl. rewrite lookup_delete_ne; [apply Hin; by right|].
      by intros <-. }
    { simpl in Hfit. lia. }
    rewrite Heq. exists p', (PublishRemoved tx :: events). simpl in *. split_and!.
    + f_equal. f_equal. lia.
    + intros h. rewrite Hlook. destruct (decide (h = v)) as [->|Hne].
      * rewrite decide_False by done. rewrite decide_True by (by left).
        apply lookup_delete_eq.
      * rewrite lookup_delete_ne by done.
        destruct (decide (h ∈ rest)) as [Hr|Hr].
        -- by rewrite decide_True by (by right).
        -- rewrite decide_False; [done|]. by intros [?|?]%elem_of_cons.
    + rewrite map_size_delete_Some in Hsize by eauto.
      assert (size (pending.Transactions p) ≠ 0%nat); [|lia].
      intros Hz. apply map_size_empty_iff in Hz. by rewrite Hz in Htx.
    + intros e He. apply elem_of_cons in He as [->|He].
      * exists v, tx. split_and!; [done|by left|done].
      * destruct (Hev e He) as (h & tx' & -> & Hh & Htx').
        exists h, tx'. split_and!; [done|by right|].
        rewrite lookup_delete_ne in Htx'; [done|]. by intros <-.
    + by rewrite Hlen.
Qed.

(** X14. [RemoveConfirmed] of the map pool, for a map keyed by the hashes of
    its transactions and workers that answer in any order: it takes out
    exactly the transactions whose probe succeeded and found the nonce used
    up, keeps every transaction whose probe failed, answers the number it
    took out and publishes one exit for each of them. *)
Theorem RemoveConfirmed_keeps_failed_probes (rpc : MemPoolTx → Result Z)
    (answered : list MemPoolTx → list MemPoolTx) (p : pending.PendingPool) :
  (∀ l, answered l ≡ₚ l) →
  (∀ h tx, pending.Transactions p !! h = Some tx → Hash tx = h) →
  Z.of_nat (size (pending.Transactions p)) < 2 ^ 64 →
  ∃ p' events,
    pending.RemoveConfirmed rpc answered p
    = (Z.of_nat (size (pending.Transactions p))
       - Z.of_nat (size (pending.Transactions p')), p', events)
    ∧ (∀ h tx, pending.Transactions p' !! h = Some tx
               ↔ pending.Transactions p !! h = Some tx ∧ confirmedBy rpc tx = false)
    ∧ (∀ e, e ∈ events →
         ∃ tx, e = PublishRemoved tx
               ∧ pending.Transactions p !! Hash tx = Some tx
               ∧ confirmedBy rpc tx = true)
    ∧ (length events + size (pending.Transactions p'))%nat
      = size (pending.Transactions p).
Proof.
  intros Hperm Hkeyed Hfit.
  set (vals := answered (map_to_list (pending.Transactions p)).*2).
  assert (Hvals : ∀ tx, tx ∈ vals ↔ pending.Transactions p !! Hash tx = Some tx).
  { intros tx. unfold vals. rewrite (Hperm _), list_elem_of_fmap. split.
    - intros ([h tx'] & -> & Hin). apply elem_of_map_to_list in Hin.
      simpl. by rewrite (Hkeyed _ _ Hin).
    - intros Htx. exists (Hash tx, tx). split; [done|].
      by apply elem_of_map_to_list. }
  assert (Hnd : NoDup (Hash <$> vals)).
  { unfold vals. rewrite (Hperm _), keyed_values by done.
    apply NoDup_fst_map_to_list. }
  assert (Hbuf : pending.confirmedBuffer rpc answered p
                 = Hash <$> filter (λ tx, confirmedBy rpc tx = true) vals)
    by apply confirmedBuffer_filter.
  assert (Hmem : ∀ h, h ∈ pending.confirmedBuffer rpc answered p
                      ↔ ∃ tx, pending.Transactions p !! h = Some tx
                              ∧ confirmedBy rpc tx = true).
  { intros h. rewrite Hbuf, list_elem_of_fmap. split.
    - intros (tx & -> & Hin). apply list_elem_of_filter in Hin as [Hc Hin].
      exists tx. split; [by apply Hvals|done].
    - intros (tx & Htx & Hc). exists tx. rewrite (Hkeyed _ _ Htx).
      split; [done|]. apply list_elem_of_filter. split; [done|].
      apply Hvals. by rewrite (Hkeyed _ _ Htx). }
  destruct (removeEach_spec (pending.confirmedBuffer rpc answered p) p 0)
    as (p' & events & Heq & Hlook & Hsize & Hev & Hlen).
  { rewrite Hbuf. eapply sublist_NoDup; [exact Hnd|].
    apply fmap_sublist, sublist_filter. }
  { intros h Hh. apply Hmem in Hh as (tx & Htx & _). eauto. }
  { lia. }
  { assert (length (pending.confirmedBuffer rpc answered p)
            ≤ size (pending.Transactions p))%nat; [|lia].
    rewrite Hbuf, length_fmap. etrans; [apply length_filter|].
    unfold vals. rewrite (Hperm _), length_fmap.
    by rewrite length_map_to_list. }
  assert (Hsame : pending.RemoveConfirmed rpc answered p
                  = pending.removeEach (pending.confirmedBuffer rpc answered p) p 0).
  { unfold pending.RemoveConfirmed.
    destruct (Nat.eqb_spec (size (pending.Transactions p)) 0) as [Hz|_].
    - apply map_size_empty_iff in Hz.
      assert (Hnil : pending.confirmedBuffer rpc answered p = []).
      { unfold pending.confirmedBuffer. rewrite Hz, map_to_list_empty. simpl.
        pose proof (Hperm []) as Hp. apply Permutation_nil_r in Hp.
        by rewrite Hp. }
      by rewrite Hnil.
    - destruct (Nat.eqb_spec (length (pending.confirmedBuffer rpc answered p)) 0)
        as [Hz|_]; [|done].
      apply nil_length_inv in Hz. by rewrite Hz. }
  exists p', events. rewrite Hsame, Heq. split_and!.
  - f_equal. f_equal. lia.
  - intros h tx. rewrite Hlook.
    destruct (decide (h ∈ pending.confirmedBuffer rpc answered p)) as [Hin|Hout].
    + split; [done|]. intros [Htx Hc].
      apply Hmem in Hin as (tx' & Htx' & Hc'). congruence.
    + split.
      * intros Htx. split; [done|].
        destruct (confirmedBy rpc tx) eqn:Hc; [|done].
        exfalso. apply Hout, Hmem. eauto.
      * by intros [? _].
  - intros e He. destruct (Hev e He) as (h & tx & -> & Hh & Htx).
    exists tx. split; [done|]. rewrite (Hkeyed _ _ Htx). split; [done|].
    apply Hmem in Hh as (tx' & Htx' & Hc'). congruence.
  - lia.
Qed.

Lemma mapPool_keyed h tx :
  pending.Transactions mapPool !! h = Some tx → Hash tx = h.
Proof.
  intros Htx. apply elem_of_map_to_list in Htx.
  revert Htx. vm_compute (map_to_list _).
  rewrite !elem_of_cons, elem_of_nil. intros [[= -> ->]|[[= -> ->]|[[= -> ->]|[]]]]; done.
Qed.

Lemma RemoveConfirmed_keeps_failed_probes_witness :
  ((∀ l : list MemPoolTx, reverse l ≡ₚ l)
   ∧ (∀ h tx, pending.Transactions mapPool !! h = Some tx → Hash tx = h)
   ∧ Z.of_nat (size (pending.Transactions mapPool)) < 2 ^ 64)
  ∧ ∃ p' events,
      pending.RemoveConfirmed sampleNode reverse mapPool
      = (Z.of_nat (size (pending.Transactions mapPool))
         - Z.of_nat (size (pending.Transactions p')), p', events)
      ∧ (length events + size (pending.Transactions p'))%nat
        = size (pending.Transactions mapPool).
Proof.
  assert (H1 : ∀ l : list MemPoolTx, reverse l ≡ₚ l) by apply reverse_Permutation.
  assert (H3 : Z.of_nat (size (pending.Transactions mapPool)) < 2 ^ 64)
    by (vm_compute; reflexivity).
  split; [split_and!; [exact H1|exact mapPool_keyed|exact H3]|].
  destruct (RemoveConfirmed_keeps_failed_probes sampleNode reverse mapPool
              H1 mapPool_keyed H3) as (p' & events & Heq & _ & _ & Hlen).
  by exists p', events.
Defined.

(** X15. In the map pool an [Add] of a hash that is no key is undone by the
    [Remove] of the hash: the pool is the one before, and the two calls
    published the entry and the exit of the transaction as stamped. A second
    [Add] of the hash in between is refused and changes nothing. *)
Theorem map_pool_add_then_remove (now now' : Z) (tx : MemPoolTx)
    (p : pending.PendingPool) :
  pending.Transactions p !! Hash tx = None →
  ∃ p1,
    pending.Add now tx p = (true, p1, [PublishAdded (stampPending now tx)])
    ∧ pending.Add now' tx p1 = (false, p1, [])
    ∧ pending.Remove (Hash tx) p1
      = (true, p, [PublishRemoved (stampPending now tx)])
    ∧ pending.Remove (Hash tx) p = (false, p, []).
Proof.
  intros Hfresh. eexists. unfold pending.Add, pending.Remove. rewrite Hfresh.
  rewrite bool_decide_eq_false_2 by (by intros [? ?]).
  split; [done|]. simpl. rewrite lookup_insert_eq.
  rewrite bool_decide_eq_true_2 by eauto.
  split; [done|]. split; [|done].
  rewrite delete_insert_id by done. by destruct p.
Qed.

Lemma map_pool_add_then_remove_witness :
  pending.Transactions mapPool !! Hash (sampleTx 9 9 5 50) = None
  ∧ ∃ p1,
      pending.Add 30 (sampleTx 9 9 5 50) mapPool
      = (true, p1, [PublishAdded (stampPending 30 (sampleTx 9 9 5 50))])
      ∧ pending.Remove 9 p1
        = (true, mapPool, [PublishRemoved (stampPending 30 (sampleTx 9 9 5 50))]).
Proof.
  assert (H : pending.Transactions mapPool !! Hash (sampleTx 9 9 5 50) = None)
    by (vm_compute; reflexivity).
  split; [exact H|].
  destruct (map_pool_add_then_remove 30 31 _ mapPool H) as (p1 & Ha & _ & Hr & _).
  by exists p1.
Defined.

(** ** First sightings *)

(** X16. No request replaces or stamps again a transaction that is in the
    pool: after a served request a key of [Transactions] still has the
    transaction it had, with the [PendingFrom] of its first sighting, or is
    no key any more. *)
Theorem entries_are_never_stamped_again (PendingPoolSize : Z) (req : Request)
    (p : PendingPool) (o : Outcome) (h : N) (tx : MemPoolTx) :
  serve PendingPoolSize req p = Some o →
  Transactions p !! h = Some tx →
  Transactions (poolAfter o) !! h = Some tx
  ∨ Transactions (poolAfter o) !! h = None.
Proof.
  intros Hserve Htx. destruct req as [now new|now txStat]; simpl in Hserve.
  - apply txAdder_cases in Hserve
      as [(_ & -> & _)|(_ & Hin & _ & _ & _ & Hpool)]; [by left|].
    assert (Hne : Hash new ≠ h) by congruence.
    destruct Hpool as [[_ ->]|(v & p0 & _ & _ & Hrm & ->)];
      rewrite addTx_Transactions; simpl; rewrite lookup_insert_ne by done.
    + by left.
    + rewrite (removeTx_Transactions _ _ _ Hrm).
      destruct (decide (Hash v = h)) as [<-|Hv].
      * right. apply lookup_delete_eq.
      * left. by rewrite lookup_delete_ne.
  - apply txRemover_cases in Hserve
      as [[_ ->]|(tx0 & tx2 & p' & _ & _ & _ & Hrm & ->)]; [by left|].
    simpl. rewrite (removeTx_Transactions _ _ _ Hrm).
    destruct (decide (Hash tx2 = h)) as [<-|Hv].
    + right. apply lookup_delete_eq.
    + left. by rewrite lookup_delete_ne.
Qed.

Lemma entries_are_never_stamped_again_witness :
  (serve 2 (AddRequest 14 (sampleTx 3 8 0 120)) fullPool
   = Some (mkOutcome true (Some (stampPending 14 (sampleTx 3 8 0 120)))
             evictedPool
             [PublishAdded (stampPending 14 (sampleTx 3 8 0 120))])
   ∧ Transactions fullPool !! 1%N = Some (stampPending 10 (sampleTx 1 7 0 100)))
  ∧ (Transactions evictedPool !! 1%N = Some (stampPending 10 (sampleTx 1 7 0 100))
     ∨ Transactions evictedPool !! 1%N = None).
Proof.
  assert (H1 : serve 2 (AddRequest 14 (sampleTx 3 8 0 120)) fullPool
   = Some (mkOutcome true (Some (stampPending 14 (sampleTx 3 8 0 120)))
             evictedPool
             [PublishAdded (stampPending 14 (sampleTx 3 8 0 120))]))
    by (vm_compute; reflexivity).
  assert (H2 : Transactions fullPool !! 1%N
               = Some (stampPending 10 (sampleTx 1 7 0 100)))
    by (vm_compute; reflexivity).
  split; [done|].
  exact (entries_are_never_stamped_again 2 _ _ _ _ _ H1 H2).
Defined.

Lemma AddPendings_spec txs :
  ∀ p count,
    0 ≤ count → count + Z.of_nat (length txs) < 2 ^ 64 →
    ∃ p' events,
      pending.AddPendings txs p count
      = (count + Z.of_nat (size (pending.Transactions p'))
         - Z.of_nat (size (pending.Transactions p)), p', events)
      ∧ (size (pending.Transactions p) ≤ size (pending.Transactions p')
         ≤ size (pending.Transactions p) + length txs)%nat
      ∧ (∀ h tx, pending.Transactions p !! h = Some tx →
           pending.Transactions p' !! h = Some tx)
      ∧ (∀ r, r ∈ txs → is_Some (pending.Transactions p' !! Hash r.2))
      ∧ length events
        = (size (pending.Transactions p') - size (pending.Transactions p))%nat.
Proof.
  induction txs as [|[now tx] rest IH]; intros p count Hc Hfit.
  - exists p, []. simpl. split_and!; try done; try lia.
    + f_equal. f_equal. lia.
    + intros r Hr. by apply elem_of_nil in Hr.
  - cbn [pending.AddPendings length]. unfold pending.Add.
    simpl in Hfit.
    destruct (pending.Transactions p !! Hash tx) as [old|] eqn:Hold.
    + rewrite bool_decide_eq_true_2 by eauto.
      destruct (IH p count) as (p' & events & Heq & Hsz & Hkeep & Hall & Hlen);
        [lia..|].
      rewrite Heq. exists p', events. simpl. split_and!; try done; try lia.
      intros r Hr. apply elem_of_cons in Hr as [->|Hr]; [|by apply Hall].
      simpl. rewrite (Hkeep _ _ Hold). eauto.
    + rewrite bool_decide_eq_false_2 by (by intros [? ?]).
      assert (Hone : uint64 (count + 1) = count + 1).
      { unfold uint64. apply Z.mod_small. lia. }
      rewrite Hone.
      destruct (IH (pending.mkPool
                      (<[Hash tx := stampPending now tx]> (pending.Transactions p)))
                  (count + 1))
        as (p' & events & Heq & Hsz & Hkeep & Hall & Hlen); [lia..|].
      simpl in *. rewrite map_size_insert_None in Heq, Hsz, Hlen by done.
      rewrite Heq. exists p', (PublishAdded (stampPending now tx) :: events).
      split_and!.
      * f_equal. f_equal. lia.
      * lia.
      * lia.
      * intros h old Hh. apply Hkeep. rewrite lookup_insert_ne; [done|].
        intros <-. congruence.
      * intros r Hr. apply elem_of_cons in Hr as [->|Hr]; [|by apply Hall].
        simpl. rewrite (Hkeep (Hash tx) (stampPending now tx)); [eauto|].
        apply lookup_insert_eq.
      * simpl. lia.
Qed.

(** X17. [AddPendings] of the map pool, for a snapshot visited in any
    order: every transaction of the pool stays as it was, every hash of the
    snapshot is a key afterwards, and the count returned is the number of
    keys gained, which is also the number of entries published. *)
Theorem map_pool_AddPendings_counts_new_keys (txs : list (Z * MemPoolTx))
    (p : pending.PendingPool) :
  Z.of_nat (length txs) < 2 ^ 64 →
  ∃ p' events,
    pending.AddPendings txs p 0
    = (Z.of_nat (size (pending.Transactions p'))
       - Z.of_nat (size (pending.Transactions p)), p', events)
    ∧ (∀ h tx, pending.Transactions p !! h = Some tx →
         pending.Transactions p' !! h = Some tx)
    ∧ (∀ r, r ∈ txs → is_Some (pending.Transactions p' !! Hash r.2))
    ∧ length events
      = (size (pending.Transactions p') - size (pending.Transactions p))%nat.
Proof.
  intros Hfit.
  destruct (AddPendings_spec txs p 0) as (p' & events & Heq & _ & Hkeep & Hall & Hlen);
    [lia..|].
  exists p', events. rewrite Heq. split_and!; try done.
Qed.

Lemma map_pool_AddPendings_counts_new_keys_witness :
  Z.of_nat (length scenario3) < 2 ^ 64
  ∧ ∃ p' events,
      pending.AddPendings scenario3 mapPool 0
      = (Z.of_nat (size (pending.Transactions p'))
         - Z.of_nat (size (pending.Transactions mapPool)), p', events)
      ∧ length events
        = (size (pending.Transactions p') - size (pending.Transactions mapPool))%nat.
Proof.
  assert (H : Z.of_nat (length scenario3) < 2 ^ 64) by (vm_compute; reflexivity).
  split; [exact H|].
  destruct (map_pool_AddPendings_counts_new_keys scenario3 mapPool H)
    as (p' & events & Heq & _ & _ & Hlen).
  by exists p', events.
Defined.

(** ** Bootstrap peers *)

Lemma awaitBoot_spec arrival :
  ∀ expected success failure,
    0 ≤ success → 0 ≤ failure →
    expected = success + failure + Z.of_nat (length arrival) →
    (1 ≤ length arrival)%nat →
    awaitBoot arrival expected success failure
    = Some (success + Z.of_nat (length (filter (λ v, v = true) arrival)), expected).
Proof.
  induction arrival as [|v later IH]; intros expected success failure Hs Hf He Hlen;
    [simpl in Hlen; lia|].
  cbn [awaitBoot]. rewrite filter_cons. cbn [length] in He.
  destruct later as [|v' later].
  - rewrite filter_nil. destruct v.
    + rewrite decide_True by done.
      destruct (Z.eqb_spec (success + 1 + failure) expected) as [_|Hne];
        [|simpl in He; lia].
      by do 2 f_equal.
    + rewrite decide_False by done.
      destruct (Z.eqb_spec (success + (failure + 1)) expected) as [_|Hne];
        [|simpl in He; lia].
      do 2 f_equal. simpl. lia.
  - cbn [length] in He. destruct v.
    + rewrite decide_True by done.
      destruct (Z.eqb_spec (success + 1 + failure) expected) as [|_]; [lia|].
      rewrite (IH expected (success + 1) failure) by (cbn [length]; lia).
      cbn [length]. do 2 f_equal. lia.
    + rewrite decide_False by done.
      destruct (Z.eqb_spec (success + (failure + 1)) expected) as [|_]; [lia|].
      by rewrite (IH expected success (failure + 1)) by (cbn [length]; lia).
Qed.

(** X18. [ConnectToBootstraps], for at least one bootstrap address and
    goroutines that report in any order, returns once every goroutine has
    reported: the number of addresses that parsed and connected, which is at
    most the number of addresses, and that number. *)
Theorem ConnectToBootstraps_counts_successes (outcomes : list (bool * bool))
    (answered : list bool → list bool) :
  (∀ l, answered l ≡ₚ l) → (1 ≤ length outcomes)%nat →
  ConnectToBootstraps outcomes answered
  = Some (Z.of_nat (length (filter (λ o, o.1 = true ∧ o.2 = true) outcomes)),
          Z.of_nat (length outcomes))
  ∧ (length (filter (λ o, o.1 = true ∧ o.2 = true) outcomes)
     ≤ length outcomes)%nat.
Proof.
  intros Hperm Hlen. split; [|apply length_filter].
  unfold ConnectToBootstraps.
  pose proof (Hperm ((λ o, bootStatus o.1 o.2) <$> outcomes)) as Hp.
  rewrite (awaitBoot_spec _ _ 0 0);
    [|lia|lia|by rewrite Hp, length_fmap|by rewrite Hp, length_fmap].
  f_equal. f_equal. rewrite Z.add_0_l. f_equal. rewrite Hp. clear Hp Hlen.
  induction outcomes as [|[parsed connected] outcomes IH]; [done|].
  rewrite fmap_cons, !filter_cons. cbn [fst snd].
  destruct parsed, connected; cbn [bootStatus negb].
  - rewrite !decide_True by done. cbn [length]. by rewrite IH.
  - rewrite !decide_False by naive_solver. done.
  - rewrite !decide_False by naive_solver. done.
  - rewrite !decide_False by naive_solver. done.
Qed.

Lemma ConnectToBootstraps_counts_successes_witness :
  ((∀ l : list bool, reverse l ≡ₚ l)
   ∧ (1 ≤ length [(true, true); (false, true); (true, false)])%nat)
  ∧ ConnectToBootstraps [(true, true); (false, true); (true, false)] reverse
    = Some (1, 3).
Proof.
  assert (H1 : ∀ l : list bool, reverse l ≡ₚ l) by apply reverse_Permutation.
  assert (H2 : (1 ≤ length [(true, true); (false, true); (true, false)])%nat)
    by (simpl; lia).
  split; [done|].
  exact (proj1 (ConnectToBootstraps_counts_successes _ reverse H1 H2)).
Defined.
